(** * freedns-go: the dispatch server ([freedns/freedns.go])

    A shallow embedding of the server's entry points ([appendDefaultPort],
    [NewServer], [Server.handle], [Server.lookup]) and of the two
    collaborators they drive, the lazy cache and the resolver arbiter.

    Go strings are byte strings ([string]); Go [int] values are [Z];
    a [*dns.Msg] is a [dns_Msg] value and a nil pointer is [None].  Messages
    are values: what the cache keeps is its own copy, so the header fields
    that [SetReply] writes into the message [Server.lookup] returns do not
    reach the store; no property below rests on the header of a stored
    answer. *)

From Stdlib Require Import ZArith String Ascii List Bool Lia.
Import ListNotations.

Local Open Scope string_scope.
Local Open Scope list_scope.
Local Open Scope Z_scope.

(** ** Go's [strings] package *)

(** [strings.HasPrefix(s, prefix)]. *)
Fixpoint strings_HasPrefix (s prefix : string) : bool :=
  match prefix, s with
  | EmptyString, _ => true
  | String _ _, EmptyString => false
  | String c prefix', String d s' => Ascii.eqb c d && strings_HasPrefix s' prefix'
  end.

(** [strings.Contains(s, substr)]: [substr] occurs somewhere within [s]. *)
Fixpoint strings_Contains (s substr : string) : bool :=
  strings_HasPrefix s substr ||
  match s with
  | EmptyString => false
  | String _ s' => strings_Contains s' substr
  end.

(** ** [appendDefaultPort] *)

(** Appends the port 53 when the address has a dot and no colon. *)
Definition appendDefaultPort (ip : string) : string :=
  if strings_Contains ip "." && negb (strings_Contains ip ":")
  then (ip ++ ":53")%string
  else ip.

(** ** The DNS message model ([github.com/miekg/dns])

    The fields of [dns.Msg] that the server reads or writes, with the
    library's constants.  An address record carries its IP as the list of
    its bytes. *)

Definition IP := list Z.

Inductive RData : Type :=
| RData_A (a : IP)
| RData_AAAA (aaaa : IP)
| RData_other (raw : list Z).

Record dns_RR : Type := mkRR {
  Hdr_Name : string;
  Hdr_Rrtype : Z;
  Hdr_Class : Z;
  Hdr_Ttl : Z;
  Data : RData
}.

Record dns_Question : Type := mkQuestion {
  Name : string;
  Qtype : Z;
  Qclass : Z
}.

Record dns_Msg : Type := mkMsg {
  Id : Z;
  Response : bool;
  Opcode : Z;
  RecursionDesired : bool;
  CheckingDisabled : bool;
  Rcode : Z;
  Question : list dns_Question;
  Answer : list dns_RR;
  Ns : list dns_RR;
  Extra : list dns_RR
}.

Definition RcodeSuccess : Z := 0.
Definition RcodeServerFailure : Z := 2.
Definition RcodeNameError : Z := 3.
Definition RcodeBadName : Z := 20.
Definition OpcodeQuery : Z := 0.
Definition TypeA : Z := 1.
Definition TypeMX : Z := 15.
Definition TypeTXT : Z := 16.
Definition TypeAAAA : Z := 28.
Definition ClassINET : Z := 1.

(** The zero value [dns.Msg{}]. *)
Definition emptyMsg : dns_Msg :=
  mkMsg 0 false 0 false false 0 [] [] [] [].

(** [res.Rcode = rcode]. *)
Definition withRcode (res : dns_Msg) (rcode : Z) : dns_Msg :=
  mkMsg (Id res) (Response res) (Opcode res) (RecursionDesired res)
        (CheckingDisabled res) rcode (Question res) (Answer res) (Ns res)
        (Extra res).

(** [(dns *Msg) SetReply(request)]: the receiver after the call.  The header
    is taken from the request, the Rcode is set to [RcodeSuccess], the
    question section becomes the request's first question; the record
    sections are left as they are. *)
Definition SetReply (dns request : dns_Msg) : dns_Msg :=
  let query := Opcode request =? OpcodeQuery in
  mkMsg (Id request) true (Opcode request)
        (if query then RecursionDesired request else RecursionDesired dns)
        (if query then CheckingDisabled request else CheckingDisabled dns)
        RcodeSuccess
        (match Question request with
         | q :: _ => [q]
         | [] => Question dns
         end)
        (Answer dns) (Ns dns) (Extra dns).

(** [(dns *Msg) SetRcode(request, rcode)]: [SetReply], then the Rcode. *)
Definition SetRcode (dns request : dns_Msg) (rcode : Z) : dns_Msg :=
  withRcode (SetReply dns request) rcode.

(** ** Logging ([github.com/sirupsen/logrus]) *)

Inductive Level : Type :=
| PanicLevel | FatalLevel | ErrorLevel | WarnLevel | InfoLevel | DebugLevel
| TraceLevel.

(** A field's value: a string, or the entry of [dns.TypeToString] or
    [dns.RcodeToString] for a number. *)
Inductive FieldValue : Type :=
| FString (s : string)
| FTypeToString (qtype : Z)
| FRcodeToString (rcode : Z).

Definition Fields := list (string * FieldValue).

(** The package-level logger [log]. *)
Record Logger : Type := mkLogger { LoggerLevel : Level }.

Definition SetLevel (l : Logger) (level : Level) : Logger := mkLogger level.

(** The error type of the package. *)
Definition Error := string.

Section Freedns.

(** What the package takes from outside: logrus' level parser, the China-IP
    classifier's table lookup, and the cache's TTL floor for an answer
    without records. *)
Variable ParseLevel : string -> Level + Error.
Variable isDomestic : IP -> bool.
Variable defaultTTL : Z.

(** ** The lazy cache ([dnsCache]) *)

(** Modelled from the spec: the cache key.  The file that declares
    [dnsCache] is not among the sources; the spec keys an entry by question
    name, type, class, recursion-desired flag and transport. *)
Record Key : Type := mkKey {
  k_name : string;
  k_qtype : Z;
  k_qclass : Z;
  k_rd : bool;
  k_net : string
}.

Definition Key_eqb (a b : Key) : bool :=
  String.eqb (k_name a) (k_name b) && (k_qtype a =? k_qtype b)
  && (k_qclass a =? k_qclass b) && Bool.eqb (k_rd a) (k_rd b)
  && String.eqb (k_net a) (k_net b).

Definition keyOf (q : dns_Question) (recursion : bool) (net : string) : Key :=
  mkKey (Name q) (Qtype q) (Qclass q) recursion net.

(** Modelled from the spec: a cache entry owns one answer and records an
    absolute expiry timestamp and a last-access timestamp. *)
Record CacheEntry : Type := mkEntry {
  answer : dns_Msg;
  expiry : Z;
  lastAccess : Z
}.

(** Modelled from the spec: the cache, its capacity fixed at construction.
    Entries are kept in the order their keys were first stored. *)
Record dnsCache : Type := mkCache {
  cap : Z;
  entries : list (Key * CacheEntry)
}.

(** Modelled from the spec: [newDNSCache(maxCap)], an empty cache. *)
Definition newDNSCache (maxCap : Z) : dnsCache := mkCache maxCap [].

(** Modelled from the spec: the entry of a key in the store, if any. *)
Fixpoint findEntry (k : Key) (l : list (Key * CacheEntry)) : option CacheEntry :=
  match l with
  | [] => None
  | (k', e) :: l' => if Key_eqb k k' then Some e else findEntry k l'
  end.

(** Modelled from the spec: an update is a replacement of the full entry,
    where it stands. *)
Fixpoint replaceEntry (k : Key) (e : CacheEntry) (l : list (Key * CacheEntry))
  : list (Key * CacheEntry) :=
  match l with
  | [] => []
  | (k', e') :: l' =>
      if Key_eqb k k' then (k', e) :: l' else (k', e') :: replaceEntry k e l'
  end.

(** Modelled from the spec: eviction removes the entry of one key. *)
Fixpoint removeEntry (k : Key) (l : list (Key * CacheEntry))
  : list (Key * CacheEntry) :=
  match l with
  | [] => []
  | (k', e') :: l' =>
      if Key_eqb k k' then l' else (k', e') :: removeEntry k l'
  end.

(** Modelled from the spec: the least-recently-used entry, the one with the
    smallest last-access timestamp (the earliest stored among equals). *)
Fixpoint lruEntry (l : list (Key * CacheEntry)) : option (Key * Z) :=
  match l with
  | [] => None
  | (k, e) :: l' =>
      match lruEntry l' with
      | Some (k', t') =>
          if lastAccess e <=? t' then Some (k, lastAccess e) else Some (k', t')
      | None => Some (k, lastAccess e)
      end
  end.

(** Modelled from the spec: eviction of the least-recently-used entry. *)
Definition evictLRU (l : list (Key * CacheEntry)) : list (Key * CacheEntry) :=
  match lruEntry l with
  | Some (k, _) => removeEntry k l
  | None => l
  end.

(** The records an answer returns, over its three sections. *)
Definition records (a : dns_Msg) : list dns_RR := Answer a ++ Ns a ++ Extra a.

(** Modelled from the spec: the effective TTL of an answer, the minimum TTL
    across its records, and a short default when it has none. *)
Definition effectiveTTL (a : dns_Msg) : Z :=
  match records a with
  | [] => defaultTTL
  | r :: rs => fold_left Z.min (map Hdr_Ttl rs) (Hdr_Ttl r)
  end.

(** Modelled from the spec: [lookup(question) -> (answer | absent,
    needsRefresh)].  A present entry is returned whatever its expiry,
    [needsRefresh] says that the expiry timestamp is in the past, and the
    hit refreshes the entry's last-access timestamp. *)
Definition cache_lookup (c : dnsCache) (k : Key) (now : Z)
  : (option dns_Msg * bool) * dnsCache :=
  match findEntry k (entries c) with
  | None => ((None, false), c)
  | Some e =>
      ((Some (answer e), expiry e <? now),
       mkCache (cap c)
               (replaceEntry k (mkEntry (answer e) (expiry e) now) (entries c)))
  end.

(** Modelled from the spec: [set(question, answer)].  The entry of the key
    is created or overwritten; only when a brand-new key is inserted into a
    store at capacity, the least-recently-used existing entry is evicted.
    The cache never holds more than its capacity: the new entry is created
    when the store, after the eviction, has room for it, so a cache of
    capacity zero keeps nothing. *)
Definition cache_set (c : dnsCache) (k : Key) (a : dns_Msg) (now : Z) : dnsCache :=
  let e := mkEntry a (now + effectiveTTL a) now in
  match findEntry k (entries c) with
  | Some _ => mkCache (cap c) (replaceEntry k e (entries c))
  | None =>
      let kept :=
        if cap c <=? Z.of_nat (length (entries c))
        then evictLRU (entries c)
        else entries c in
      if Z.of_nat (length kept) <? cap c
      then mkCache (cap c) (kept ++ [(k, e)])
      else mkCache (cap c) kept
  end.

(** Modelled from the spec: the cache's two methods with the arguments the
    server passes, [lookup(q, recursion, net)] and [set(res, net)].  [set]
    has the answer only: its key is read off the answer's own first question
    and recursion-desired flag, and an answer without a question section
    names no entry. *)
Definition dnsCache_lookup (c : dnsCache) (q : dns_Question) (recursion : bool)
  (net : string) (now : Z) : (option dns_Msg * bool) * dnsCache :=
  cache_lookup c (keyOf q recursion net) now.

Definition dnsCache_set (c : dnsCache) (res : dns_Msg) (net : string) (now : Z)
  : dnsCache :=
  match Question res with
  | q :: _ => cache_set c (keyOf q (RecursionDesired res) net) res now
  | [] => c
  end.

(** A run of cache operations under a clock that only advances. *)
Inductive CacheOp : Type :=
| OpLookup (k : Key)
| OpSet (k : Key) (a : dns_Msg)
| OpWait (d : N).

Definition cache_step (op : CacheOp) (st : Z * dnsCache) : Z * dnsCache :=
  let (now, c) := st in
  match op with
  | OpLookup k => (now, snd (cache_lookup c k now))
  | OpSet k a => (now, cache_set c k a now)
  | OpWait d => (now + Z.of_N d, c)
  end.

Definition cache_run (ops : list CacheOp) (st : Z * dnsCache) : Z * dnsCache :=
  fold_left (fun st op => cache_step op st) ops st.

(** Whether a key has an entry, and how many entries the cache holds. *)
Definition cached (c : dnsCache) (k : Key) : bool :=
  match findEntry k (entries c) with
  | Some _ => true
  | None => false
  end.

Definition size (c : dnsCache) : Z := Z.of_nat (length (entries c)).

(** ** The resolver arbiter ([spoofingProofResolver]) *)

(** Modelled from the spec: the arbiter holds the addresses of its two
    upstreams; the file that declares it is not among the sources. *)
Record spoofingProofResolver : Type := mkResolver {
  fastUpstream : string;
  cleanUpstream : string
}.

(** Modelled from the spec: [newSpoofingProofResolver(fast, clean, cap)];
    the arbiter of the spec keeps the two addresses. *)
Definition newSpoofingProofResolver (fastUpstream cleanUpstream : string)
  (cacheCap : Z) : spoofingProofResolver :=
  mkResolver fastUpstream cleanUpstream.

(** Modelled from the spec: one query to an upstream, by its address: the
    answer, or [None] when the transport fails or times out. *)
Definition Exchange := string -> dns_Question -> bool -> string -> option dns_Msg.

(** Modelled from the spec: an address-type query asks for A or AAAA. *)
Definition isAddressQuery (q : dns_Question) : bool :=
  (Qtype q =? TypeA) || (Qtype q =? TypeAAAA).

(** Modelled from the spec: the resolved addresses, those of the A and AAAA
    records of the answer section. *)
Definition addresses (m : dns_Msg) : list IP :=
  flat_map (fun rr => match Data rr with
                      | RData_A ip => [ip]
                      | RData_AAAA ip => [ip]
                      | RData_other _ => []
                      end) (Answer m).

Definition hasAddressRecord (m : dns_Msg) : bool :=
  match addresses m with
  | [] => false
  | _ :: _ => true
  end.

(** Modelled from the spec: the answer of a resolution in which no upstream
    answered carries the server-failure status. *)
Definition serverFailure : dns_Msg := withRcode emptyMsg RcodeServerFailure.

(** Modelled from the spec: [resolve(question) -> (answer, label)], section
    4.2, with the upstreams contacted, in order.
    Step 1: the fast upstream is queried; a transport failure leaves no
    usable fast answer.
    Step 2, which opens on the fast answer's status being success (section 8
    has the non-address query "answered successfully"): when the answer has
    at least one A/AAAA record, each address is classified; if any address
    is domestic, or the question is not an address-type query, the fast
    answer is returned, labelled fast.
    Step 3: otherwise, a non-success fast status included, the clean
    upstream is queried and its answer is returned, labelled clean,
    whatever its status.
    Step 4: when the clean upstream fails too, the answer carries the
    server-failure status. *)
Definition spoofingProofResolver_resolve (r : spoofingProofResolver)
  (exchange : Exchange) (q : dns_Question) (recursion : bool) (net : string)
  : (dns_Msg * string) * list string :=
  let trusted :=
    match exchange (fastUpstream r) q recursion net with
    | None => None
    | Some fast =>
        if Rcode fast =? RcodeSuccess then
          let domestic :=
            if hasAddressRecord fast
            then existsb isDomestic (addresses fast)
            else false in
          if domestic || negb (isAddressQuery q) then Some fast else None
        else None
    end in
  match trusted with
  | Some fast => ((fast, "fast"), [fastUpstream r])
  | None =>
      match exchange (cleanUpstream r) q recursion net with
      | Some clean => ((clean, "clean"), [fastUpstream r; cleanUpstream r])
      | None => ((serverFailure, "clean"), [fastUpstream r; cleanUpstream r])
      end
  end.

(** ** Configuration and construction *)

(** Config stores the configuration for the Server. *)
Record Config : Type := mkConfig {
  FastDNS : string;
  CleanDNS : string;
  Listen : string;
  CacheCap : Z;
  LogLevel : string
}.

(** A [dns.Server] of the library: its address, its network, and the network
    name its handler hands to [Server.handle]. *)
Record dns_Server : Type := mkDnsServer {
  Addr : string;
  Net : string;
  HandlerNet : string
}.

(** Server is the type of the freedns server instance. *)
Record Server : Type := mkServer {
  config : Config;
  udpServer : dns_Server;
  tcpServer : dns_Server;
  resolver : spoofingProofResolver;
  recordsCache : dnsCache
}.

(** [NewServer(cfg)]: the server and the error it returns, and the package
    logger after the call. *)
Definition NewServer (cfg : Config) (log : Logger)
  : (option Server * option Error) * Logger :=
  let listen := if String.eqb (Listen cfg) "" then "127.0.0.1" else Listen cfg in
  let log :=
    match ParseLevel (LogLevel cfg) with
    | inl level => SetLevel log level
    | inr _ => log
    end in
  let cfg :=
    mkConfig (appendDefaultPort (FastDNS cfg)) (appendDefaultPort (CleanDNS cfg))
             (appendDefaultPort listen) (CacheCap cfg) (LogLevel cfg) in
  let s :=
    mkServer cfg
             (mkDnsServer (Listen cfg) "udp" "udp")
             (mkDnsServer (Listen cfg) "tcp" "tcp")
             (newSpoofingProofResolver (FastDNS cfg) (CleanDNS cfg) (CacheCap cfg))
             (newDNSCache (CacheCap cfg)) in
  ((Some s, None), log).

(** ** Effects of a request handler

    A handler is a tree of the calls it makes on the server's cache
    ([s.recordsCache]), its resolver ([s.resolver]), the response writer and
    the logger; [Go] starts a goroutine and goes on without it; [Panic] is a
    run-time panic. *)
Inductive Act (R : Type) : Type :=
| Ret (r : R)
| Panic (msg : string)
| CacheLookup (q : dns_Question) (recursion : bool) (net : string)
    (k : option dns_Msg -> bool -> Act R)
| Resolve (q : dns_Question) (recursion : bool) (net : string)
    (k : dns_Msg -> string -> Act R)
| CacheSet (res : dns_Msg) (net : string) (k : Act R)
| WriteMsg (w : nat) (m : dns_Msg) (k : Act R)
| LogEntry (level : Level) (fields : Fields) (k : Act R)
| Go (task : Act unit) (k : Act R).

#[global] Arguments Ret {R} r.
#[global] Arguments Panic {R} msg.
#[global] Arguments CacheLookup {R} q recursion net k.
#[global] Arguments Resolve {R} q recursion net k.
#[global] Arguments CacheSet {R} res net k.
#[global] Arguments WriteMsg {R} w m k.
#[global] Arguments LogEntry {R} level fields k.
#[global] Arguments Go {R} task k.

Fixpoint bind {A B : Type} (m : Act A) (f : A -> Act B) : Act B :=
  match m with
  | Ret a => f a
  | Panic msg => Panic msg
  | CacheLookup q rd net k => CacheLookup q rd net (fun r u => bind (k r u) f)
  | Resolve q rd net k => Resolve q rd net (fun r u => bind (k r u) f)
  | CacheSet res net k => CacheSet res net (bind k f)
  | WriteMsg w m k => WriteMsg w m (bind k f)
  | LogEntry l fs k => LogEntry l fs (bind k f)
  | Go t k => Go t (bind k f)
  end.

Definition recordsCache_lookup (q : dns_Question) (recursion : bool) (net : string)
  : Act (option dns_Msg * bool) :=
  CacheLookup q recursion net (fun r u => Ret (r, u)).

Definition resolver_resolve (q : dns_Question) (recursion : bool) (net : string)
  : Act (dns_Msg * string) :=
  Resolve q recursion net (fun r u => Ret (r, u)).

Definition recordsCache_set (res : dns_Msg) (net : string) : Act unit :=
  CacheSet res net (Ret tt).

Definition w_WriteMsg (w : nat) (m : dns_Msg) : Act unit := WriteMsg w m (Ret tt).

Definition log_Info (fields : Fields) : Act unit := LogEntry InfoLevel fields (Ret tt).

Definition log_Warn (fields : Fields) : Act unit := LogEntry WarnLevel fields (Ret tt).

Definition go (task : Act unit) : Act unit := Go task (Ret tt).

(** [req.Question[0]]: an index out of range panics. *)
Definition Question0 (req : dns_Msg) : Act dns_Question :=
  match Question req with
  | q :: _ => Ret q
  | [] => Panic "index out of range [0] with length 0"
  end.

Notation "x <- m ;; k" := (bind m (fun x => k))
  (at level 61, m at next level, right associativity).
Notation "' pat <- m ;; k" := (bind m (fun x => match x with pat => k end))
  (at level 61, pat pattern, m at next level, right associativity).
Notation "m ;; k" := (bind m (fun _ => k))
  (at level 61, right associativity).

(** ** [Server.lookup] and [Server.handle] *)

Definition update_cache_fields (q : dns_Question) (upstream : string) : Fields :=
  [("op", FString "update_cache");
   ("domain", FString (Name q));
   ("type", FTypeToString (Qtype q));
   ("upstream", FString upstream)].

(** The goroutine [Server.lookup] starts on a stale hit. *)
Definition lookup_refresh (req : dns_Msg) (net : string) : Act unit :=
  q <- Question0 req ;;
  '(r, u) <- resolver_resolve q (RecursionDesired req) net ;;
  if Rcode r =? RcodeSuccess then
    log_Info (update_cache_fields q u) ;;
    recordsCache_set r net
  else Ret tt.

(** lookup queries the dns request on either the local cache or the
    upstreams, and returns the result and which upstream is used.  It updates
    the local cache if necessary. *)
Definition Server_lookup (req : dns_Msg) (net : string) : Act (dns_Msg * string) :=
  q <- Question0 req ;;
  '(res, upd) <- recordsCache_lookup q (RecursionDesired req) net ;;
  '(res, upstream) <-
    match res with
    | Some res =>
        (if upd then go (lookup_refresh req net) else Ret tt) ;;
        Ret (res, "cache")
    | None =>
        '(res, upstream) <- resolver_resolve q (RecursionDesired req) net ;;
        (if Rcode res =? RcodeSuccess then
           log_Info (update_cache_fields q upstream) ;;
           recordsCache_set res net
         else Ret tt) ;;
        Ret (res, upstream)
    end ;;
  let rcode := Rcode res in
  let res := SetReply res req in
  let res := withRcode res rcode in
  Ret (res, upstream).

Definition handle_fields (q : dns_Question) (upstream : string) (res : dns_Msg)
  : Fields :=
  [("op", FString "handle");
   ("domain", FString (Name q));
   ("type", FTypeToString (Qtype q));
   ("upstream", FString upstream);
   ("status", FRcodeToString (Rcode res))].

Definition Server_handle (w : nat) (req : dns_Msg) (net : string) : Act unit :=
  let res := emptyMsg in
  if Z.of_nat (length (Question req)) <? 1 then
    let res := SetRcode res req RcodeBadName in
    w_WriteMsg w res ;;
    log_Warn [("op", FString "handle");
              ("msg", FString "request without questions")]
  else
    '(res, upstream) <- Server_lookup req net ;;
    w_WriteMsg w res ;;
    q <- Question0 req ;;
    let l := handle_fields q upstream res in
    if Rcode res =? RcodeSuccess then log_Info l else log_Warn l.

(** ** Running one handler

    The cache and the resolver are whatever the handlers say they are, over
    a state of the rest of the system (the cache's store, the clock, the
    network).  A run gives what the handler returned ([None] after a
    panic), the state it left, the calls it made in order, and the goroutines
    it started, which have not run. *)
Record Handlers (St : Type) : Type := mkHandlers {
  on_lookup : dns_Question -> bool -> string -> St -> (option dns_Msg * bool) * St;
  on_resolve : dns_Question -> bool -> string -> St -> (dns_Msg * string) * St;
  on_set : dns_Msg -> string -> St -> St
}.

#[global] Arguments on_lookup {St} h q recursion net st : rename.
#[global] Arguments on_resolve {St} h q recursion net st : rename.
#[global] Arguments on_set {St} h res net st : rename.

Inductive Event : Type :=
| EvCacheLookup (q : dns_Question) (recursion : bool) (net : string)
| EvResolve (q : dns_Question) (recursion : bool) (net : string)
| EvCacheSet (res : dns_Msg) (net : string)
| EvWriteMsg (w : nat) (m : dns_Msg)
| EvLog (level : Level) (fields : Fields).

Record Outcome (St R : Type) : Type := mkOutcome {
  returned : option R;
  final : St;
  calls : list Event;
  spawned : list (Act unit)
}.

#[global] Arguments mkOutcome {St R} returned final calls spawned.
#[global] Arguments returned {St R} o.
#[global] Arguments final {St R} o.
#[global] Arguments calls {St R} o.
#[global] Arguments spawned {St R} o.

Definition after {St R : Type} (evs : list Event) (tasks : list (Act unit))
  (o : Outcome St R) : Outcome St R :=
  mkOutcome (returned o) (final o) (evs ++ calls o) (tasks ++ spawned o).

Fixpoint exec {St R : Type} (h : Handlers St) (p : Act R) (st : St)
  : Outcome St R :=
  match p with
  | Ret r => mkOutcome (Some r) st [] []
  | Panic _ => mkOutcome None st [] []
  | CacheLookup q rd net k =>
      let '(r, u, st') := on_lookup h q rd net st in
      after [EvCacheLookup q rd net] [] (exec h (k r u) st')
  | Resolve q rd net k =>
      let '(r, u, st') := on_resolve h q rd net st in
      after [EvResolve q rd net] [] (exec h (k r u) st')
  | CacheSet res net k =>
      after [EvCacheSet res net] [] (exec h k (on_set h res net st))
  | WriteMsg w m k => after [EvWriteMsg w m] [] (exec h k st)
  | LogEntry l fs k => after [EvLog l fs] [] (exec h k st)
  | Go t k => after [] [t] (exec h k st)
  end.

(** Every [cache.set] of the tree, on every path and in every goroutine it
    starts, is given an answer whose Rcode is [RcodeSuccess]. *)
Fixpoint guarded {R : Type} (p : Act R) : Prop :=
  match p with
  | Ret _ => True
  | Panic _ => True
  | CacheLookup _ _ _ k => forall r u, guarded (k r u)
  | Resolve _ _ _ k => forall r u, guarded (k r u)
  | CacheSet res _ k => Rcode res = RcodeSuccess /\ guarded k
  | WriteMsg _ _ k => guarded k
  | LogEntry _ _ k => guarded k
  | Go t k => guarded t /\ guarded k
  end.

Definition sets_only_success (evs : list Event) : Prop :=
  forall res net, In (EvCacheSet res net) evs -> Rcode res = RcodeSuccess.

(** ** The running server

    The listener starts one goroutine per request; goroutines share the
    cache and take turns one call at a time, in any order.  What a
    [resolver.resolve] returns is up to the network: any answer, any
    label. *)
Record System : Type := mkSystem {
  sys_cache : dnsCache;
  sys_now : Z;
  sys_pool : list (Act unit)
}.

Inductive thread_step (c : dnsCache) (now : Z)
  : Act unit -> dnsCache -> Act unit -> list (Act unit) -> Prop :=
| ts_lookup q rd net k :
    thread_step c now (CacheLookup q rd net k)
      (snd (dnsCache_lookup c q rd net now))
      (k (fst (fst (dnsCache_lookup c q rd net now)))
         (snd (fst (dnsCache_lookup c q rd net now)))) []
| ts_resolve q rd net k r u :
    thread_step c now (Resolve q rd net k) c (k r u) []
| ts_set res net k :
    thread_step c now (CacheSet res net k) (dnsCache_set c res net now) k []
| ts_write w m k : thread_step c now (WriteMsg w m k) c k []
| ts_log l fs k : thread_step c now (LogEntry l fs k) c k []
| ts_go t k : thread_step c now (Go t k) c k [t].

Inductive step : System -> System -> Prop :=
| step_wait s (d : N) :
    step s (mkSystem (sys_cache s) (sys_now s + Z.of_N d) (sys_pool s))
| step_request s w req net :
    step s (mkSystem (sys_cache s) (sys_now s)
                     (Server_handle w req net :: sys_pool s))
| step_thread s before t rest c' t' started :
    sys_pool s = before ++ t :: rest ->
    thread_step (sys_cache s) (sys_now s) t c' t' started ->
    step s (mkSystem c' (sys_now s) (before ++ t' :: started ++ rest)).

(** The states of a running server, from its start on. *)
Inductive reachable (srv : Server) : System -> Prop :=
| reachable_start now : reachable srv (mkSystem (recordsCache srv) now [])
| reachable_step s s' : reachable srv s -> step s s' -> reachable srv s'.

(** ** Vocabulary of the properties *)

(** The answer [Server.lookup] works with: the cached one on a hit, the
    resolver's on a miss. *)
Definition obtained {St : Type} (h : Handlers St) (q : dns_Question)
  (recursion : bool) (net : string) (st : St) : dns_Msg :=
  match on_lookup h q recursion net st with
  | (Some cached, _, _) => cached
  | (None, _, st') => fst (fst (on_resolve h q recursion net st'))
  end.

(** What a run of the refresh goroutine does from a state [st]: one
    [resolve], then a log entry and a [set] when the answer's Rcode is
    success, and nothing more when it is not. *)
Definition refresh_outcome {St : Type} (h : Handlers St) (q : dns_Question)
  (recursion : bool) (net : string) (st : St) : Outcome St unit :=
  let '(r, u, st') := on_resolve h q recursion net st in
  if Rcode r =? RcodeSuccess
  then mkOutcome (Some tt) (on_set h r net st')
         [EvResolve q recursion net; EvLog InfoLevel (update_cache_fields q u);
          EvCacheSet r net] []
  else mkOutcome (Some tt) st' [EvResolve q recursion net] [].

(** Every entry of the cache holds a success answer. *)
Definition cache_ok (c : dnsCache) : Prop :=
  Forall (fun p => Rcode (answer (snd p)) = RcodeSuccess) (entries c).

(** The running server's invariant: a success-only cache and a pool of guarded
    goroutines. *)
Definition sys_ok (s : System) : Prop :=
  cache_ok (sys_cache s) /\ Forall (fun t => guarded t) (sys_pool s).

(** The keys of a store, in order. *)
Definition keys (l : list (Key * CacheEntry)) : list Key := map fst l.

(** What every cache a run reaches from an empty one satisfies. *)
Definition cache_wf (maxCap : Z) (c : dnsCache) : Prop :=
  cap c = maxCap /\ size c <= maxCap /\ NoDup (keys (entries c)).




(** * Properties *)

(** ** [appendDefaultPort] and [strings.Contains] *)

Lemma strings_Contains_app_r (s t substr : string) :
  strings_Contains t substr = true ->
  strings_Contains (s ++ t) substr = true.
Proof.
  intros Ht. induction s as [|c s IH]; simpl.
  - exact Ht.
  - rewrite IH. apply orb_true_r.
Qed.

Lemma string_length_append (s t : string) :
  String.length (s ++ t) = (String.length s + String.length t)%nat.
Proof. induction s as [|c s IH]; simpl; [reflexivity | now rewrite IH]. Qed.

Lemma string_append_neq (s t : string) : t <> EmptyString -> (s ++ t)%string <> s.
Proof.
  intros Ht Heq. apply (f_equal String.length) in Heq.
  rewrite string_length_append in Heq.
  destruct t; [congruence | simpl in Heq; lia].
Qed.

Lemma appendDefaultPort_appended_has_colon (s : string) :
  strings_Contains (s ++ ":53") ":" = true.
Proof. apply strings_Contains_app_r. reflexivity. Qed.

Example appendDefaultPort_ipv4 : appendDefaultPort "114.114.114.114" = "114.114.114.114:53".
Proof. reflexivity. Qed.

Example appendDefaultPort_with_port : appendDefaultPort "8.8.8.8:5353" = "8.8.8.8:5353".
Proof. reflexivity. Qed.

Example appendDefaultPort_ipv6 : appendDefaultPort "::1" = "::1".
Proof. reflexivity. Qed.

Example appendDefaultPort_hostname : appendDefaultPort "localhost" = "localhost".
Proof. reflexivity. Qed.

(** C9. [appendDefaultPort] is idempotent: applying it twice gives the same
    string as applying it once.  The port is appended exactly when the
    input contains a dot and no colon, and what is appended to always
    contains a colon afterwards. *)
Theorem appendDefaultPort_idempotent (s : string) :
  appendDefaultPort (appendDefaultPort s) = appendDefaultPort s
  /\ (appendDefaultPort s = (s ++ ":53")%string <->
      strings_Contains s "." = true /\ strings_Contains s ":" = false)
  /\ strings_Contains (s ++ ":53") ":" = true.
Proof.
  pose proof (appendDefaultPort_appended_has_colon s) as Hcolon.
  split; [|split; [|exact Hcolon]].
  - unfold appendDefaultPort.
    destruct (strings_Contains s "." && negb (strings_Contains s ":")) eqn:Hc.
    + rewrite Hcolon, andb_false_r. reflexivity.
    + rewrite Hc. reflexivity.
  - unfold appendDefaultPort.
    destruct (strings_Contains s ".") eqn:Hdot;
      destruct (strings_Contains s ":") eqn:Hcol; simpl; split;
      try (intros [? ?]; discriminate); try tauto.
    all: intros Heq; exfalso; symmetry in Heq;
      revert Heq; apply string_append_neq; discriminate.
Qed.

(** ** Construction *)

(** C10. [NewServer] never fails: for every configuration it returns a
    server and no error.  An empty [Listen] is replaced by 127.0.0.1 (which
    then gets the default port), and a [LogLevel] that does not parse leaves
    the logger as it was and is reported nowhere. *)
Theorem NewServer_never_fails (cfg : Config) (log : Logger) :
  exists s : Server,
    fst (NewServer cfg log) = (Some s, None)
    /\ (Listen cfg = "" ->
        Listen (config s) = appendDefaultPort "127.0.0.1"
        /\ Listen (config s) = "127.0.0.1:53")
    /\ (Listen cfg <> "" -> Listen (config s) = appendDefaultPort (Listen cfg))
    /\ (forall e, ParseLevel (LogLevel cfg) = inr e ->
        NewServer cfg log = ((Some s, None), log))
    /\ (forall level, ParseLevel (LogLevel cfg) = inl level ->
        snd (NewServer cfg log) = SetLevel log level).
Proof.
  unfold NewServer. eexists. split; [reflexivity|]. simpl.
  split; [|split; [|split]].
  - intros Hempty. rewrite Hempty. split; reflexivity.
  - intros Hne. apply String.eqb_neq in Hne. rewrite Hne. reflexivity.
  - intros e He. rewrite He. reflexivity.
  - intros level Hl. rewrite Hl. reflexivity.
Qed.

(** ** One request *)

Section OneRequest.

Context {St : Type} (h : Handlers St).

(** C7. A request whose question section is empty is answered with a reply
    whose Rcode is [RcodeBadName]; the handler then logs a warning and
    returns.  It makes no call on the cache or on the resolver, starts no
    goroutine, and leaves the state as it found it. *)
Theorem handle_rejects_empty_question (st : St) (w : nat) (req : dns_Msg)
  (net : string) :
  Question req = [] ->
  exec h (Server_handle w req net) st =
    mkOutcome (Some tt) st
      [EvWriteMsg w (SetRcode emptyMsg req RcodeBadName);
       EvLog WarnLevel [("op", FString "handle");
                        ("msg", FString "request without questions")]]
      []
  /\ Rcode (SetRcode emptyMsg req RcodeBadName) = RcodeBadName.
Proof.
  intros Hq. unfold Server_handle. rewrite Hq. simpl. split; reflexivity.
Qed.

(** C8. For a request with at least one question, the message
    [Server.lookup] returns is the obtained answer after [SetReply] with its
    own Rcode put back: its Rcode is the obtained answer's, although
    [SetReply] had set it to success, and every other field is as [SetReply]
    left it. *)
Theorem lookup_preserves_rcode (st : St) (req : dns_Msg) (net : string)
  (q : dns_Question) (qs : list dns_Question) :
  Question req = q :: qs ->
  exists (res : dns_Msg) (upstream : string),
    returned (exec h (Server_lookup req net) st) = Some (res, upstream)
    /\ Rcode res = Rcode (obtained h q (RecursionDesired req) net st)
    /\ Rcode (SetReply (obtained h q (RecursionDesired req) net st) req)
       = RcodeSuccess
    /\ res = withRcode (SetReply (obtained h q (RecursionDesired req) net st) req)
                       (Rcode (obtained h q (RecursionDesired req) net st)).
Proof.
  intros Hq. unfold Server_lookup, Question0, obtained. rewrite Hq. simpl.
  destruct (on_lookup h q (RecursionDesired req) net st) as [[[cached|] upd] st1];
    simpl.
  - destruct upd; simpl; eexists; eexists; repeat split; reflexivity.
  - destruct (on_resolve h q (RecursionDesired req) net st1) as [[r u] st2]; simpl.
    destruct (Rcode r =? RcodeSuccess); simpl;
      eexists; eexists; repeat split; reflexivity.
Qed.

(** C1. When the cache has the question, [Server.lookup] returns the cached
    answer, made a reply to the request, with the label cache, and its only
    call is the cache lookup.  A fresh hit starts nothing.  A stale hit
    starts one goroutine and returns without running it; when that goroutine
    runs it calls [resolve] and, only if the answer's Rcode is success,
    [set] with that answer. *)
Theorem lookup_cache_hit (st st' : St) (req : dns_Msg) (net : string)
  (q : dns_Question) (qs : list dns_Question) (cached : dns_Msg) (upd : bool) :
  Question req = q :: qs ->
  on_lookup h q (RecursionDesired req) net st = ((Some cached, upd), st') ->
  exists res : dns_Msg,
    returned (exec h (Server_lookup req net) st) = Some (res, "cache")
    /\ res = withRcode (SetReply cached req) (Rcode cached)
    /\ (Rcode res = Rcode cached /\ Answer res = Answer cached
        /\ Ns res = Ns cached /\ Extra res = Extra cached)
    /\ calls (exec h (Server_lookup req net) st)
       = [EvCacheLookup q (RecursionDesired req) net]
    /\ final (exec h (Server_lookup req net) st) = st'
    /\ (upd = false -> spawned (exec h (Server_lookup req net) st) = [])
    /\ (upd = true ->
        exists task : Act unit,
          spawned (exec h (Server_lookup req net) st) = [task]
          /\ forall st1 : St,
               exec h task st1
               = refresh_outcome h q (RecursionDesired req) net st1).
Proof.
  intros Hq Hhit. unfold Server_lookup, Question0. rewrite Hq. simpl.
  rewrite Hhit. simpl. eexists.
  destruct upd; simpl.
  - split; [reflexivity|]. split; [reflexivity|].
    split; [repeat split; reflexivity|].
    split; [reflexivity|]. split; [reflexivity|].
    split; [discriminate|]. intros _. eexists. split; [reflexivity|].
    intros st1. unfold lookup_refresh, Question0, refresh_outcome.
    rewrite Hq. simpl.
    destruct (on_resolve h q (RecursionDesired req) net st1) as [[r u] st2].
    simpl. destruct (Rcode r =? RcodeSuccess); reflexivity.
  - split; [reflexivity|]. split; [reflexivity|].
    split; [repeat split; reflexivity|].
    split; [reflexivity|]. split; [reflexivity|].
    split; [reflexivity|]. discriminate.
Qed.


End OneRequest.

(** ** No negative caching *)

Lemma guarded_Server_lookup (req : dns_Msg) (net : string) :
  guarded (Server_lookup req net).
Proof.
  unfold Server_lookup, lookup_refresh, Question0.
  destruct (Question req) as [|q qs]; simpl; [exact I|].
  intros [cached|] upd; simpl.
  - destruct upd; simpl; [|exact I]. split; [|exact I].
    intros r u. destruct (Rcode r =? RcodeSuccess) eqn:Hrc; simpl; [|exact I].
    apply Z.eqb_eq in Hrc. auto.
  - intros r u. destruct (Rcode r =? RcodeSuccess) eqn:Hrc; simpl; [|exact I].
    apply Z.eqb_eq in Hrc. auto.
Qed.

Lemma guarded_bind {A B : Type} (m : Act A) (f : A -> Act B) :
  guarded m -> (forall a, guarded (f a)) -> guarded (bind m f).
Proof.
  intros G Hf. revert B f Hf G.
  induction m as [R r|R msg|R q rd net k IH|R q rd net k IH|R res net k IH
                 |R w m k IH|R l fs k IH|R t IHt k IH];
    intros B f Hf G; simpl in *; auto.
  - destruct G; auto.
  - destruct G; auto.
Qed.

Lemma guarded_Server_handle (w : nat) (req : dns_Msg) (net : string) :
  guarded (Server_handle w req net).
Proof.
  unfold Server_handle.
  destruct (Z.of_nat (length (Question req)) <? 1); simpl; [exact I|].
  apply guarded_bind; [apply guarded_Server_lookup|].
  intros [res upstream]. unfold Question0. simpl.
  destruct (Question req); simpl; [exact I|].
  destruct (Rcode res =? RcodeSuccess); exact I.
Qed.

(** A run of a guarded tree calls [set] with success answers only, and the
    goroutines it starts are guarded too. *)
Lemma guarded_exec {St R : Type} (h : Handlers St) (p : Act R) :
  guarded p ->
  forall st, sets_only_success (calls (exec h p st))
             /\ Forall (fun t => guarded t) (spawned (exec h p st)).
Proof.
  unfold sets_only_success.
  induction p as [R r|R msg|R q rd net k IH|R q rd net k IH|R res net k IH
                 |R w m k IH|R l fs k IH|R t IHt k IH]; simpl; intros G st.
  - split; [intros ? ? []|constructor].
  - split; [intros ? ? []|constructor].
  - destruct (on_lookup h q rd net st) as [[r u] st1]. simpl.
    destruct (IH r u (G r u) st1) as [Hc Hs]. split; [|exact Hs].
    intros res net' [Heq|Hin]; [discriminate|eauto].
  - destruct (on_resolve h q rd net st) as [[r u] st1]. simpl.
    destruct (IH r u (G r u) st1) as [Hc Hs]. split; [|exact Hs].
    intros res net' [Heq|Hin]; [discriminate|eauto].
  - destruct G as [Hrc G]. destruct (IH G (on_set h res net st)) as [Hc Hs].
    split; [|exact Hs].
    intros res' net' [Heq|Hin]; [injection Heq as <- _; exact Hrc|eauto].
  - destruct (IH G st) as [Hc Hs]. split; [|exact Hs].
    intros res net' [Heq|Hin]; [discriminate|eauto].
  - destruct (IH G st) as [Hc Hs]. split; [|exact Hs].
    intros res net' [Heq|Hin]; [discriminate|eauto].
  - destruct G as [Gt G]. destruct (IH G st) as [Hc Hs].
    split; [exact Hc|]. constructor; assumption.
Qed.

Lemma findEntry_In (k : Key) (l : list (Key * CacheEntry)) (e : CacheEntry) :
  findEntry k l = Some e -> exists k', In (k', e) l.
Proof.
  induction l as [|[k' e'] l IH]; simpl; [discriminate|].
  destruct (Key_eqb k k').
  - intros [= <-]. exists k'. now left.
  - intros Hf. destruct (IH Hf) as [k'' Hin]. exists k''. now right.
Qed.

Lemma Forall_replaceEntry (P : Key * CacheEntry -> Prop) (k : Key)
  (e : CacheEntry) (l : list (Key * CacheEntry)) :
  (forall k', P (k', e)) -> Forall P l -> Forall P (replaceEntry k e l).
Proof.
  intros He Hl. induction Hl as [|[k' e'] l Hx Hl IH]; simpl; [constructor|].
  destruct (Key_eqb k k'); constructor; auto.
Qed.

Lemma Forall_removeEntry (P : Key * CacheEntry -> Prop) (k : Key)
  (l : list (Key * CacheEntry)) :
  Forall P l -> Forall P (removeEntry k l).
Proof.
  intros Hl. induction Hl as [|[k' e'] l Hx Hl IH]; simpl; [constructor|].
  destruct (Key_eqb k k'); [assumption|constructor; assumption].
Qed.

Lemma Forall_evictLRU (P : Key * CacheEntry -> Prop)
  (l : list (Key * CacheEntry)) :
  Forall P l -> Forall P (evictLRU l).
Proof.
  intros Hl. unfold evictLRU. destruct (lruEntry l) as [[k t]|]; [|assumption].
  now apply Forall_removeEntry.
Qed.

Lemma cache_ok_lookup (c : dnsCache) (k : Key) (now : Z) :
  cache_ok c ->
  cache_ok (snd (cache_lookup c k now))
  /\ forall a, fst (fst (cache_lookup c k now)) = Some a -> Rcode a = RcodeSuccess.
Proof.
  unfold cache_ok, cache_lookup. intros Hok.
  destruct (findEntry k (entries c)) as [e|] eqn:Hf; simpl.
  - destruct (findEntry_In _ _ _ Hf) as [k' Hin].
    pose proof (proj1 (Forall_forall _ _) Hok _ Hin) as He. simpl in He.
    split.
    + apply Forall_replaceEntry; [intros; exact He|exact Hok].
    + intros a [= <-]. exact He.
  - split; [exact Hok|discriminate].
Qed.

Lemma cache_ok_set (c : dnsCache) (k : Key) (a : dns_Msg) (now : Z) :
  Rcode a = RcodeSuccess -> cache_ok c -> cache_ok (cache_set c k a now).
Proof.
  unfold cache_ok, cache_set. intros Ha Hok.
  destruct (findEntry k (entries c)); simpl.
  - apply Forall_replaceEntry; [intros; exact Ha|exact Hok].
  - assert (Hkept : Forall (fun p => Rcode (answer (snd p)) = RcodeSuccess)
                      (if cap c <=? Z.of_nat (length (entries c))
                       then evictLRU (entries c) else entries c)).
    { destruct (cap c <=? Z.of_nat (length (entries c)));
        [now apply Forall_evictLRU|exact Hok]. }
    destruct (Z.of_nat (length _) <? cap c); simpl; [|exact Hkept].
    apply Forall_app. split; [exact Hkept|].
    constructor; [exact Ha|constructor].
Qed.

Lemma thread_step_ok (c c' : dnsCache) (now : Z) (t t' : Act unit)
  (started : list (Act unit)) :
  thread_step c now t c' t' started ->
  cache_ok c -> guarded t ->
  cache_ok c' /\ guarded t' /\ Forall (fun t => guarded t) started.
Proof.
  intros Hstep Hok G. destruct Hstep; simpl in G.
  - split; [|split; [apply G|constructor]].
    apply cache_ok_lookup. exact Hok.
  - split; [exact Hok|split; [apply G|constructor]].
  - destruct G as [Hrc G]. split; [|split; [exact G|constructor]].
    unfold dnsCache_set. destruct (Question res); [exact Hok|].
    now apply cache_ok_set.
  - split; [exact Hok|split; [exact G|constructor]].
  - split; [exact Hok|split; [exact G|constructor]].
  - destruct G as [Gt G]. split; [exact Hok|split; [exact G|]].
    constructor; [exact Gt|constructor].
Qed.

Lemma step_ok (s s' : System) : step s s' -> sys_ok s -> sys_ok s'.
Proof.
  intros Hstep [Hc Hp]. destruct Hstep as [s d|s w req net|s before t rest c' t' started Hpool Hts].
  - split; assumption.
  - split; [assumption|]. constructor; [apply guarded_Server_handle|assumption].
  - simpl. rewrite Hpool in Hp. apply Forall_app in Hp. destruct Hp as [Hb Hr].
    inversion Hr as [|? ? Gt Hrest]; subst.
    destruct (thread_step_ok _ _ _ _ _ _ Hts Hc Gt) as [Hc' [Gt' Gs]].
    split; [exact Hc'|]. simpl.
    apply Forall_app. split; [exact Hb|].
    constructor; [exact Gt'|]. apply Forall_app. split; assumption.
Qed.

Lemma reachable_ok (srv : Server) (s : System) :
  cache_ok (recordsCache srv) -> reachable srv s -> sys_ok s.
Proof.
  intros Hsrv Hr. induction Hr as [now|s s' Hr IH Hstep].
  - split; [exact Hsrv|constructor].
  - eapply step_ok; eassumption.
Qed.

(** C3. No path of the orchestrator hands [cache.set] an answer whose Rcode
    is not success: neither a run of [Server.lookup] nor a run of a goroutine
    it started.  So in every state a server built by [NewServer] can reach,
    with requests arriving, goroutines taking turns in any order and the
    resolver answering anything, whatever a cache lookup returns has Rcode
    success: a server-failure answer is never retrievable. *)
Theorem no_negative_caching :
  (forall (St : Type) (h : Handlers St) (st : St) (req : dns_Msg) (net : string),
      sets_only_success (calls (exec h (Server_lookup req net) st))
      /\ forall (task : Act unit) (st1 : St),
           In task (spawned (exec h (Server_lookup req net) st)) ->
           sets_only_success (calls (exec h task st1)))
  /\ (forall (cfg : Config) (log : Logger) (srv : Server) (s : System),
      fst (NewServer cfg log) = (Some srv, None) ->
      reachable srv s ->
      forall (q : dns_Question) (rd : bool) (net : string) (now : Z)
             (a : dns_Msg),
        fst (fst (dnsCache_lookup (sys_cache s) q rd net now)) = Some a ->
        Rcode a = RcodeSuccess /\ Rcode a <> RcodeServerFailure).
Proof.
  split.
  - intros St h st req net.
    destruct (guarded_exec h _ (guarded_Server_lookup req net) st) as [Hc Hs].
    split; [exact Hc|].
    intros task st1 Hin.
    apply (guarded_exec h task).
    exact (proj1 (Forall_forall _ _) Hs task Hin).
  - intros cfg log srv s Hnew Hr q rd net now a Hlook.
    assert (Hok : sys_ok s).
    { apply (reachable_ok srv); [|exact Hr].
      unfold NewServer in Hnew. simpl in Hnew. injection Hnew as <-.
      constructor. }
    destruct Hok as [Hc _].
    destruct (cache_ok_lookup _ (keyOf q rd net) now Hc) as [_ Hret].
    specialize (Hret a Hlook). split; [exact Hret|].
    rewrite Hret. discriminate.
Qed.

(** ** The resolver arbiter *)


(** ** The lazy cache *)

Lemma Key_eqb_eq (a b : Key) : Key_eqb a b = true <-> a = b.
Proof.
  unfold Key_eqb. destruct a, b; simpl.
  rewrite !andb_true_iff, !String.eqb_eq, !Z.eqb_eq, Bool.eqb_true_iff.
  split.
  - intros [[[[-> ->] ->] ->] ->]. reflexivity.
  - intros [= -> -> -> -> ->]. auto.
Qed.

Lemma Key_eqb_refl (a : Key) : Key_eqb a a = true.
Proof. now apply Key_eqb_eq. Qed.

Lemma Key_eqb_neq (a b : Key) : Key_eqb a b = false <-> a <> b.
Proof.
  rewrite <- Key_eqb_eq. destruct (Key_eqb a b); split; congruence.
Qed.

Lemma findEntry_None (k : Key) (l : list (Key * CacheEntry)) :
  findEntry k l = None <-> ~ In k (keys l).
Proof.
  induction l as [|[k' e] l IH]; simpl; [tauto|].
  destruct (Key_eqb k k') eqn:Hk.
  - apply Key_eqb_eq in Hk. subst. split; [discriminate|tauto].
  - apply Key_eqb_neq in Hk. rewrite IH. split; [intros ? [?|?]; auto|tauto].
Qed.




Lemma keys_replaceEntry (k : Key) (e : CacheEntry) (l : list (Key * CacheEntry)) :
  keys (replaceEntry k e l) = keys l.
Proof.
  induction l as [|[k' e'] l IH]; simpl; [reflexivity|].
  destruct (Key_eqb k k'); simpl; [reflexivity|now rewrite IH].
Qed.

Lemma findEntry_replaceEntry (k : Key) (e : CacheEntry)
  (l : list (Key * CacheEntry)) :
  findEntry k l <> None -> findEntry k (replaceEntry k e l) = Some e.
Proof.
  induction l as [|[k' e'] l IH]; simpl; [congruence|].
  destruct (Key_eqb k k') eqn:Hk; simpl; rewrite Hk; auto.
Qed.

Lemma findEntry_app_new (k : Key) (e : CacheEntry) (l : list (Key * CacheEntry)) :
  findEntry k l = None -> findEntry k (l ++ [(k, e)]) = Some e.
Proof.
  induction l as [|[k' e'] l IH]; simpl.
  - now rewrite Key_eqb_refl.
  - destruct (Key_eqb k k'); [discriminate|exact IH].
Qed.

Lemma findEntry_removeEntry_None (k k' : Key) (l : list (Key * CacheEntry)) :
  findEntry k l = None -> findEntry k (removeEntry k' l) = None.
Proof.
  induction l as [|[k1 e1] l IH]; simpl; [reflexivity|].
  destruct (Key_eqb k k1) eqn:Hk; [discriminate|]. intros Hf.
  destruct (Key_eqb k' k1); [exact Hf|]. simpl. rewrite Hk. auto.
Qed.

Lemma findEntry_evictLRU_None (k : Key) (l : list (Key * CacheEntry)) :
  findEntry k l = None -> findEntry k (evictLRU l) = None.
Proof.
  intros Hf. unfold evictLRU. destruct (lruEntry l) as [[k' t]|]; [|exact Hf].
  now apply findEntry_removeEntry_None.
Qed.

(** What [set] does with a key that has no entry: the store after the
    eviction, if any, and the new entry at its end when there is room. *)
Lemma cache_set_new (c : dnsCache) (k : Key) (a : dns_Msg) (now : Z) :
  findEntry k (entries c) = None ->
  exists kept,
    kept = (if cap c <=? Z.of_nat (length (entries c))
            then evictLRU (entries c) else entries c)
    /\ findEntry k kept = None
    /\ cap (cache_set c k a now) = cap c
    /\ ((Z.of_nat (length kept) < cap c
         /\ entries (cache_set c k a now)
            = kept ++ [(k, mkEntry a (now + effectiveTTL a) now)])
        \/ (cap c <= Z.of_nat (length kept)
            /\ entries (cache_set c k a now) = kept)).
Proof.
  intros Hf. unfold cache_set. rewrite Hf. eexists. split; [reflexivity|].
  split.
  - destruct (cap c <=? Z.of_nat (length (entries c)));
      [now apply findEntry_evictLRU_None|exact Hf].
  - destruct (Z.of_nat (length _) <? cap c) eqn:Hroom; simpl.
    + apply Z.ltb_lt in Hroom. split; [reflexivity|]. left. split; [exact Hroom|reflexivity].
    + apply Z.ltb_ge in Hroom. split; [reflexivity|]. right. split; [exact Hroom|reflexivity].
Qed.

(** After a [set] that left an entry for the key, the key holds the answer
    with a fresh expiry. *)
Lemma findEntry_cache_set (c : dnsCache) (k : Key) (a : dns_Msg) (now : Z) :
  cached (cache_set c k a now) k = true ->
  findEntry k (entries (cache_set c k a now))
  = Some (mkEntry a (now + effectiveTTL a) now).
Proof.
  intros Hc. destruct (findEntry k (entries c)) eqn:Hf.
  - unfold cache_set. rewrite Hf. simpl. apply findEntry_replaceEntry. congruence.
  - destruct (cache_set_new c k a now Hf) as (kept & _ & Hk & _ & [[_ He]|[_ He]]).
    + rewrite He. now apply findEntry_app_new.
    + unfold cached in Hc. rewrite He, Hk in Hc. discriminate.
Qed.

(** *** Capacity and eviction *)

Lemma length_replaceEntry (k : Key) (e : CacheEntry) (l : list (Key * CacheEntry)) :
  length (replaceEntry k e l) = length l.
Proof.
  induction l as [|[k' e'] l IH]; simpl; [reflexivity|].
  destruct (Key_eqb k k'); simpl; congruence.
Qed.

Lemma lruEntry_In (l : list (Key * CacheEntry)) (k : Key) (t : Z) :
  lruEntry l = Some (k, t) -> exists e, In (k, e) l /\ lastAccess e = t.
Proof.
  revert k t. induction l as [|[k' e'] l IH]; simpl; intros k t; [discriminate|].
  destruct (lruEntry l) as [[k1 t1]|].
  - destruct (lastAccess e' <=? t1).
    + intros [= <- <-]. eauto.
    + intros [= <- <-]. destruct (IH _ _ eq_refl) as [e [Hin He]]. eauto.
  - intros [= <- <-]. eauto.
Qed.


Lemma lruEntry_nonempty (l : list (Key * CacheEntry)) :
  l <> [] -> exists k t, lruEntry l = Some (k, t).
Proof.
  destruct l as [|[k e] l]; [congruence|]. intros _. simpl.
  destruct (lruEntry l) as [[k1 t1]|]; [|eauto].
  destruct (lastAccess e <=? t1); eauto.
Qed.


Lemma length_removeEntry (k : Key) (l : list (Key * CacheEntry)) :
  In k (keys l) -> S (length (removeEntry k l)) = length l.
Proof.
  induction l as [|[k' e'] l IH]; simpl; [tauto|].
  destruct (Key_eqb k k') eqn:Hk; [reflexivity|].
  apply Key_eqb_neq in Hk. intros [Heq|Hin]; [congruence|].
  simpl. now rewrite IH.
Qed.

Lemma In_keys (k : Key) (e : CacheEntry) (l : list (Key * CacheEntry)) :
  In (k, e) l -> In k (keys l).
Proof. intros Hin. apply (in_map fst) in Hin. exact Hin. Qed.

Lemma length_evictLRU (l : list (Key * CacheEntry)) :
  l <> [] -> S (length (evictLRU l)) = length l.
Proof.
  intros Hne. unfold evictLRU.
  destruct (lruEntry_nonempty l Hne) as [k [t Hl]]. rewrite Hl.
  destruct (lruEntry_In _ _ _ Hl) as [e [Hin _]].
  apply length_removeEntry. eapply In_keys; eassumption.
Qed.

Lemma keys_removeEntry_incl (k k' : Key) (l : list (Key * CacheEntry)) :
  In k' (keys (removeEntry k l)) -> In k' (keys l).
Proof.
  induction l as [|[k1 e1] l IH]; simpl; [tauto|].
  destruct (Key_eqb k k1); simpl; [auto|]. intros [?|?]; auto.
Qed.

Lemma NoDup_removeEntry (k : Key) (l : list (Key * CacheEntry)) :
  NoDup (keys l) ->
  NoDup (keys (removeEntry k l)) /\ ~ In k (keys (removeEntry k l)).
Proof.
  induction l as [|[k1 e1] l IH]; simpl; intros Hnd.
  - split; [constructor|tauto].
  - inversion Hnd as [|? ? Hnotin Hnd']; subst.
    destruct (Key_eqb k k1) eqn:Hk.
    + apply Key_eqb_eq in Hk. subst. auto.
    + apply Key_eqb_neq in Hk. destruct (IH Hnd') as [IH1 IH2]. simpl. split.
      * constructor; [|exact IH1]. intros Hin. apply Hnotin.
        eapply keys_removeEntry_incl; eassumption.
      * intros [Heq|Hin]; [congruence|auto].
Qed.



Lemma keys_app (l l' : list (Key * CacheEntry)) :
  keys (l ++ l') = keys l ++ keys l'.
Proof. apply map_app. Qed.


Lemma cache_wf_lookup (maxCap : Z) (c : dnsCache) (k : Key) (now : Z) :
  cache_wf maxCap c -> cache_wf maxCap (snd (cache_lookup c k now)).
Proof.
  unfold cache_wf, cache_lookup, size. intros [Hcap [Hsz Hnd]].
  destruct (findEntry k (entries c)); simpl; [|auto].
  rewrite length_replaceEntry, keys_replaceEntry. auto.
Qed.

Lemma length_evictLRU_le (l : list (Key * CacheEntry)) :
  (length (evictLRU l) <= length l)%nat.
Proof.
  destruct l as [|p l]; [simpl; lia|].
  pose proof (length_evictLRU (p :: l)) as H. simpl in *.
  assert (Hne : p :: l <> []) by discriminate. specialize (H Hne). lia.
Qed.

Lemma NoDup_evictLRU (l : list (Key * CacheEntry)) :
  NoDup (keys l) -> NoDup (keys (evictLRU l)).
Proof.
  intros Hnd. unfold evictLRU. destruct (lruEntry l) as [[k t]|]; [|exact Hnd].
  now apply NoDup_removeEntry.
Qed.

Lemma cache_wf_set (maxCap : Z) (c : dnsCache) (k : Key) (a : dns_Msg) (now : Z) :
  cache_wf maxCap c -> cache_wf maxCap (cache_set c k a now).
Proof.
  unfold cache_wf, size. intros [Hcap [Hsz Hnd]].
  destruct (findEntry k (entries c)) eqn:Hf.
  - unfold cache_set. rewrite Hf. simpl.
    rewrite length_replaceEntry, keys_replaceEntry. auto.
  - destruct (cache_set_new c k a now Hf) as (kept & Hkept & Hk & Hcap' & Hcase).
    assert (Hlen : (length kept <= length (entries c))%nat).
    { subst kept. destruct (cap c <=? Z.of_nat (length (entries c)));
        [apply length_evictLRU_le|lia]. }
    assert (Hnd' : NoDup (keys kept)).
    { subst kept. destruct (cap c <=? Z.of_nat (length (entries c)));
        [now apply NoDup_evictLRU|exact Hnd]. }
    split; [congruence|].
    destruct Hcase as [[Hroom ->]|[_ ->]].
    + rewrite length_app, keys_app. simpl. split; [lia|].
      apply NoDup_app; [exact Hnd'|constructor; [simpl; tauto|constructor]|].
      intros x Hx [<-|[]]. now apply (proj1 (findEntry_None _ _) Hk).
    + split; [lia|exact Hnd'].
Qed.

Lemma cache_wf_run (maxCap : Z) (ops : list CacheOp) (st : Z * dnsCache) :
  cache_wf maxCap (snd st) -> cache_wf maxCap (snd (cache_run ops st)).
Proof.
  revert st. induction ops as [|op ops IH]; intros [now c] Hwf;
    simpl; [exact Hwf|].
  apply IH. destruct op; simpl.
  - now apply cache_wf_lookup.
  - now apply cache_wf_set.
  - exact Hwf.
Qed.

Lemma cache_wf_new (maxCap : Z) : 0 <= maxCap -> cache_wf maxCap (newDNSCache maxCap).
Proof.
  intros Hpos. unfold cache_wf, size. simpl. split; [reflexivity|].
  split; [lia|constructor].
Qed.

(** In a cache of capacity at least one, [set] always leaves an entry for
    the key. *)
Lemma cache_set_cached (maxCap : Z) (c : dnsCache) (k : Key) (a : dns_Msg)
  (now : Z) :
  1 <= maxCap -> cache_wf maxCap c -> cached (cache_set c k a now) k = true.
Proof.
  intros Hpos [Hcap [Hsz Hnd]]. unfold size in Hsz.
  destruct (findEntry k (entries c)) eqn:Hf.
  - unfold cached, cache_set. rewrite Hf. simpl.
    rewrite findEntry_replaceEntry; [reflexivity|congruence].
  - destruct (cache_set_new c k a now Hf) as (kept & Hkept & Hk & _ & Hcase).
    destruct Hcase as [[_ He]|[Hfull _]].
    + unfold cached. rewrite He. now rewrite findEntry_app_new.
    + exfalso. subst kept.
      destruct (cap c <=? Z.of_nat (length (entries c))) eqn:Hcmp.
      * apply Z.leb_le in Hcmp.
        assert (Hne : entries c <> []).
        { intros He. rewrite He in Hcmp. simpl in Hcmp. lia. }
        pose proof (length_evictLRU _ Hne). lia.
      * apply Z.leb_gt in Hcmp. lia.
Qed.






(** C5.  [lookup] of a key that has an entry returns that entry's answer,
    whatever its expiry, and [needsRefresh] is true exactly when the expiry
    is in the past; a key without an entry is a miss.  The hit leaves the
    entry in place: a second lookup, at any time, returns the same answer.
    A [set] of an answer
    of effective TTL 1 into a cache of capacity at least one reached from
    the empty cache, whether or not the key had an entry (the empty cache
    included), followed by a [lookup] more than one time unit later,
    returns that answer with [needsRefresh] true. *)
Theorem cache_lookup_lazy (k : Key) :
  (forall (c : dnsCache) (now : Z) (e : CacheEntry),
      findEntry k (entries c) = Some e ->
      fst (cache_lookup c k now)
      = (Some (answer e), expiry e <? now))
  /\ (forall (c : dnsCache) (now : Z),
        findEntry k (entries c) = None ->
        cache_lookup c k now = ((None, false), c))
  /\ (forall (c : dnsCache) (now1 now2 : Z) (e : CacheEntry),
        findEntry k (entries c) = Some e ->
        fst (cache_lookup (snd (cache_lookup c k now1)) k now2)
        = (Some (answer e), expiry e <? now2))
  /\ (forall (maxCap : Z) (ops : list CacheOp) (t0 now : Z) (c : dnsCache)
             (a : dns_Msg) (d : N),
        1 <= maxCap ->
        cache_run ops (t0, newDNSCache maxCap) = (now, c) ->
        effectiveTTL a = 1 -> 1 < Z.of_N d ->
        cached (cache_set c k a now) k = true
        /\ fst (cache_lookup (cache_set c k a now) k (now + Z.of_N d))
           = (Some a, true)).
Proof.
  split; [|split; [|split]].
  - intros c now e Hf. unfold cache_lookup. now rewrite Hf.
  - intros c now Hf. unfold cache_lookup. now rewrite Hf.
  - intros c now1 now2 e Hf. unfold cache_lookup. rewrite Hf. simpl.
    rewrite findEntry_replaceEntry by congruence. reflexivity.
  - intros maxCap ops t0 now c a d Hpos Hrun Httl Hd.
    assert (Hwf : cache_wf maxCap c).
    { pose proof (cache_wf_run maxCap ops (t0, newDNSCache maxCap)
                    (cache_wf_new maxCap ltac:(lia))) as Hwf.
      now rewrite Hrun in Hwf. }
    pose proof (cache_set_cached maxCap c k a now Hpos Hwf) as Hin.
    split; [exact Hin|].
    unfold cache_lookup. rewrite (findEntry_cache_set c k a now Hin). simpl.
    f_equal. apply Z.ltb_lt. lia.
Qed.


End Freedns.

(** * The properties at concrete requests *)

Module Demo.

Definition parseLevel (s : string) : Level + Error :=
  if String.eqb s "info" then inl InfoLevel
  else if String.eqb s "debug" then inl DebugLevel
  else inr "not a valid logrus Level".

(** A classifier that takes 114.0.0.0/8 for domestic. *)
Definition domestic (ip : IP) : bool :=
  match ip with
  | 114 :: _ => true
  | _ => false
  end.

Definition ttlFloor : Z := 5.

Definition q_a : dns_Question := mkQuestion "example.test." TypeA ClassINET.
Definition q_mx : dns_Question := mkQuestion "example.test." TypeMX ClassINET.

Definition request (q : dns_Question) : dns_Msg :=
  mkMsg 4660 false OpcodeQuery true false 0 [q] [] [] [].

Definition no_question : dns_Msg :=
  mkMsg 4661 false OpcodeQuery true false 0 [] [] [] [].

Definition rr_a (ttl : Z) (ip : IP) : dns_RR :=
  mkRR "example.test." TypeA ClassINET ttl (RData_A ip).

Definition answer_of (q : dns_Question) (rcode : Z) (rrs : list dns_RR) : dns_Msg :=
  mkMsg 99 true OpcodeQuery true true rcode [q] rrs [] [].

Definition domestic_answer : dns_Msg := answer_of q_a RcodeSuccess [rr_a 1 [114; 1; 2; 3]].
Definition nxdomain (q : dns_Question) : dns_Msg := answer_of q RcodeNameError [].

Definition key_a : Key := keyOf q_a true "udp".
Definition key_b : Key := keyOf q_mx true "udp".
Definition key_c : Key := keyOf q_a true "tcp".

(** Handlers over a clock and a cache: the cache is the lazy cache, and the
    resolver answers every question with [reply] from [upstream]. *)
Definition handlers (reply : dns_Msg) (upstream : string) : Handlers (Z * dnsCache) :=
  mkHandlers (Z * dnsCache)
    (fun q rd net st =>
       (fst (dnsCache_lookup (snd st) q rd net (fst st)),
        (fst st, snd (dnsCache_lookup (snd st) q rd net (fst st)))))
    (fun q rd net st => ((reply, upstream), st))
    (fun res net st => (fst st, dnsCache_set ttlFloor (snd st) res net (fst st))).

(** A cache whose one entry, for [q_a] over udp, expired at time 50. *)
Definition stale_cache : dnsCache :=
  mkCache 2 [(key_a, mkEntry domestic_answer 50 49)].

Definition reply_of (a : dns_Msg) (q : dns_Question) : dns_Msg :=
  withRcode (SetReply a (request q)) (Rcode a).

Definition config : Config :=
  mkConfig "114.114.114.114" "8.8.8.8" "" 2 "verbose".

Definition server : Server :=
  mkServer (mkConfig "114.114.114.114:53" "8.8.8.8:53" "127.0.0.1:53" 2 "verbose")
           (mkDnsServer "127.0.0.1:53" "udp" "udp")
           (mkDnsServer "127.0.0.1:53" "tcp" "tcp")
           (mkResolver "114.114.114.114:53" "8.8.8.8:53")
           (mkCache 2 []).

Definition resolver : spoofingProofResolver := resolver server.

(** An upstream table: the fast upstream answers the A question with a
    domestic address and the MX question with a name error; the clean
    upstream answers everything with success and no records. *)
Definition exchange : Exchange :=
  fun upstream q rd net =>
    if String.eqb upstream "114.114.114.114:53"
    then Some (if Qtype q =? TypeA then domestic_answer else nxdomain q)
    else Some (answer_of q RcodeSuccess []).

(** One turn of the goroutine at the head of the pool. *)
Ltac head_step R tac :=
  match type of R with
  | reachable _ _ (mkSystem ?c ?now (?t :: ?rest)) =>
      let H := fresh "Hts" in
      eassert (H : thread_step ttlFloor c now t _ _ _) by tac;
      apply (fun R => reachable_step _ _ _ _ R
                        (step_thread _ (mkSystem c now (t :: rest)) [] t rest
                           _ _ _ eq_refl H)) in R;
      clear H; cbn in R
  end.

Example NewServer_config :
  NewServer parseLevel config (mkLogger InfoLevel)
  = ((Some server, None), mkLogger InfoLevel).
Proof. reflexivity. Qed.

(** The stale hit of C1: the cached answer comes back at once, labelled
    cache, after the single cache lookup. *)
Lemma lookup_cache_hit_witness :
  Question (request q_a) = [q_a]
  /\ on_lookup (handlers (nxdomain q_a) "clean") q_a true "udp" (100, stale_cache)
     = ((Some domestic_answer, true),
        (100, mkCache 2 [(key_a, mkEntry domestic_answer 50 100)]))
  /\ exists res : dns_Msg,
       returned (exec (handlers (nxdomain q_a) "clean")
                      (Server_lookup (request q_a) "udp") (100, stale_cache))
       = Some (res, "cache")
       /\ res = reply_of domestic_answer q_a
       /\ calls (exec (handlers (nxdomain q_a) "clean")
                      (Server_lookup (request q_a) "udp") (100, stale_cache))
          = [EvCacheLookup q_a true "udp"].
Proof.
  split; [reflexivity|]. split; [reflexivity|].
  destruct (lookup_cache_hit (handlers (nxdomain q_a) "clean")
              (100, stale_cache)
              (100, mkCache 2 [(key_a, mkEntry domestic_answer 50 100)])
              (request q_a) "udp" q_a [] domestic_answer true
              eq_refl eq_refl) as [res [H1 [H2 [_ [H4 _]]]]].
  exists res. split; [exact H1|]. split; [exact H2|exact H4].
Defined.


(** C7 at a request without a question. *)
Lemma handle_rejects_empty_question_witness :
  Question no_question = []
  /\ calls (exec (handlers domestic_answer "fast")
                 (Server_handle 1 no_question "udp") (0, newDNSCache 2))
     = [EvWriteMsg 1 (SetRcode emptyMsg no_question RcodeBadName);
        EvLog WarnLevel [("op", FString "handle");
                         ("msg", FString "request without questions")]]
  /\ Rcode (SetRcode emptyMsg no_question RcodeBadName) = 20.
Proof.
  split; [reflexivity|].
  destruct (handle_rejects_empty_question (handlers domestic_answer "fast")
              (0, newDNSCache 2) 1 no_question "udp" eq_refl) as [H1 H2].
  split; [|exact H2]. rewrite H1. reflexivity.
Defined.

(** C8 at a miss answered with a name error: the reply keeps Rcode 3. *)
Lemma lookup_preserves_rcode_witness :
  Question (request q_a) = [q_a]
  /\ exists (res : dns_Msg) (upstream : string),
       returned (exec (handlers (nxdomain q_a) "clean")
                      (Server_lookup (request q_a) "udp") (0, newDNSCache 2))
       = Some (res, upstream)
       /\ Rcode res = RcodeNameError.
Proof.
  split; [reflexivity|].
  destruct (lookup_preserves_rcode (handlers (nxdomain q_a) "clean")
              (0, newDNSCache 2) (request q_a) "udp" q_a [] eq_refl)
    as [res [upstream [H1 [H2 _]]]].
  exists res, upstream. split; [exact H1|exact H2].
Defined.

(** C5 at an answer of TTL one set into the empty cache, where the key has
    no entry, and into a full cache of capacity one that holds another key,
    each looked up two time units later; and at the stale entry. *)
Lemma cache_lookup_lazy_witness :
  cached (newDNSCache 2) key_a = false
  /\ effectiveTTL ttlFloor domestic_answer = 1
  /\ cached (cache_set ttlFloor (newDNSCache 2) key_a domestic_answer 10) key_a
     = true
  /\ fst (cache_lookup (cache_set ttlFloor (newDNSCache 2) key_a domestic_answer 10)
                       key_a (10 + Z.of_N 2))
     = (Some domestic_answer, true)
  /\ cached (mkCache 1 [(key_b, mkEntry domestic_answer 1 0)]) key_a = false
  /\ fst (cache_lookup
            (cache_set ttlFloor (mkCache 1 [(key_b, mkEntry domestic_answer 1 0)])
                       key_a domestic_answer 3)
            key_a (3 + Z.of_N 2))
     = (Some domestic_answer, true)
  /\ fst (cache_lookup stale_cache key_a 100) = (Some domestic_answer, true).
Proof.
  destruct (cache_lookup_lazy ttlFloor key_a) as [H1 [_ [_ H3]]].
  split; [reflexivity|]. split; [reflexivity|].
  destruct (H3 2 [] 10 10 (newDNSCache 2) domestic_answer 2%N
              ltac:(lia) eq_refl eq_refl eq_refl) as [Hin Hhit].
  split; [exact Hin|]. split; [exact Hhit|]. split; [reflexivity|].
  split.
  - exact (proj2 (H3 1 [OpSet key_b domestic_answer; OpWait 3] 0 3
                    (mkCache 1 [(key_b, mkEntry domestic_answer 1 0)])
                    domestic_answer 2%N ltac:(lia) eq_refl eq_refl eq_refl)).
  - exact (H1 stale_cache 100 (mkEntry domestic_answer 50 49) eq_refl).
Defined.


(** A set into a full cache of capacity two: the entry accessed longest ago,
    [key_a], makes room for [key_c]. *)
Example cache_set_evicts_oldest :
  entries (cache_set ttlFloor
             (mkCache 2 [(key_a, mkEntry domestic_answer 1 0);
                         (key_b, mkEntry domestic_answer 2 1)])
             key_c domestic_answer 4)
  = [(key_b, mkEntry domestic_answer 2 1); (key_c, mkEntry domestic_answer 5 4)].
Proof. reflexivity. Qed.

(** A cache of capacity zero keeps nothing. *)
Example cache_capacity_zero_keeps_nothing :
  snd (cache_run ttlFloor [OpSet key_a domestic_answer] (0, newDNSCache 0))
  = newDNSCache 0.
Proof. reflexivity. Qed.

Example resolve_trusts_domestic :
  spoofingProofResolver_resolve domestic resolver exchange q_a true "udp"
  = ((domestic_answer, "fast"), ["114.114.114.114:53"]).
Proof. reflexivity. Qed.


(** An MX question the fast upstream answers with success has no address to
    classify: the fast answer is returned and the clean upstream is not
    asked. *)
Example resolve_nonaddress_success_is_fast :
  spoofingProofResolver_resolve domestic resolver
    (fun _ q _ _ => Some (answer_of q RcodeSuccess [])) q_mx true "udp"
  = ((answer_of q_mx RcodeSuccess [], "fast"), ["114.114.114.114:53"]).
Proof. reflexivity. Qed.

(** The MX question gets a name error from the fast upstream: the clean
    upstream is asked and its answer is the one returned. *)
Example resolve_failed_fast_goes_clean :
  spoofingProofResolver_resolve domestic resolver exchange q_mx true "udp"
  = ((answer_of q_mx RcodeSuccess [], "clean"),
     ["114.114.114.114:53"; "8.8.8.8:53"]).
Proof. reflexivity. Qed.

(** A state the server reaches: a request for [q_a] arrives, its goroutine
    misses the cache, the resolver answers with success, and the answer is
    set. *)
Lemma reachable_after_miss :
  exists (t : Act unit),
    reachable ttlFloor server
      (mkSystem (mkCache 2 [(key_a, mkEntry domestic_answer 1 0)]) 0 [t]).
Proof.
  pose proof (reachable_start ttlFloor server 0) as R.
  apply (fun R => reachable_step _ _ _ _ R
                    (step_request _ _ 1 (request q_a) "udp")) in R.
  cbn in R.
  head_step R ltac:(apply ts_lookup).
  head_step R ltac:(apply (ts_resolve _ _ _ _ _ _ _ domestic_answer "fast")).
  head_step R ltac:(apply ts_log).
  head_step R ltac:(apply ts_set).
  eexists. exact R.
Qed.

(** C3 at that state: what a lookup of [q_a] returns there has Rcode
    success. *)
Lemma no_negative_caching_witness :
  fst (NewServer parseLevel config (mkLogger InfoLevel)) = (Some server, None)
  /\ (exists t : Act unit,
        reachable ttlFloor server
          (mkSystem (mkCache 2 [(key_a, mkEntry domestic_answer 1 0)]) 0 [t]))
  /\ fst (fst (dnsCache_lookup (mkCache 2 [(key_a, mkEntry domestic_answer 1 0)])
                               q_a true "udp" 7)) = Some domestic_answer
  /\ Rcode domestic_answer = RcodeSuccess.
Proof.
  split; [reflexivity|]. split; [exact reachable_after_miss|].
  split; [reflexivity|].
  destruct reachable_after_miss as [t Hr].
  destruct (no_negative_caching parseLevel ttlFloor) as [_ Hinv].
  exact (proj1 (Hinv config (mkLogger InfoLevel) server _ eq_refl Hr
                  q_a true "udp" 7 domestic_answer eq_refl)).
Defined.

End Demo.

(** * More of the server

    Further properties of [appendDefaultPort], [NewServer], [Server.lookup]
    and [Server.handle], and [Server.Run]. *)

(** ** What [strings.Contains] decides *)

Lemma strings_HasPrefix_iff (s prefix : string) :
  strings_HasPrefix s prefix = true <-> exists rest, s = (prefix ++ rest)%string.
Proof.
  revert s. induction prefix as [|c prefix IH]; intros s; simpl.
  - split; [intros _; exists s; reflexivity|intros _; destruct s; reflexivity].
  - destruct s as [|d s]; [split; [discriminate|intros [rest H]; discriminate]|].
    cbn [strings_HasPrefix]. rewrite andb_true_iff, Ascii.eqb_eq, IH. split.
    + intros [-> [rest ->]]. exists rest. reflexivity.
    + intros [rest [= -> ->]]. split; [reflexivity|exists rest; reflexivity].
Qed.

Lemma strings_Contains_iff (s substr : string) :
  strings_Contains s substr = true
  <-> exists before rest, s = (before ++ substr ++ rest)%string.
Proof.
  induction s as [|c s IH].
  - cbn [strings_Contains]. rewrite orb_false_r, strings_HasPrefix_iff. split.
    + intros [rest H]. exists EmptyString, rest. exact H.
    + intros [before [rest H]]. destruct before; [exists rest; exact H|discriminate].
  - cbn [strings_Contains]. rewrite orb_true_iff, strings_HasPrefix_iff, IH. split.
    + intros [[rest H]|[before [rest H]]].
      * exists EmptyString, rest. exact H.
      * exists (String c before), rest. simpl. now rewrite H.
    + intros [before [rest H]]. destruct before as [|d before].
      * left. exists rest. exact H.
      * right. injection H as _ H. exists before, rest. exact H.
Qed.

Lemma appendDefaultPort_fixed (s : string) :
  appendDefaultPort (appendDefaultPort s) = appendDefaultPort s.
Proof.
  unfold appendDefaultPort.
  destruct (strings_Contains s "." && negb (strings_Contains s ":")) eqn:Hc.
  - rewrite appendDefaultPort_appended_has_colon, andb_false_r. reflexivity.
  - rewrite Hc. reflexivity.
Qed.

Lemma appendDefaultPort_nonempty (s : string) :
  s <> EmptyString -> appendDefaultPort s <> EmptyString.
Proof.
  unfold appendDefaultPort. intros Hs.
  destruct (strings_Contains s "." && negb (strings_Contains s ":")); [|exact Hs].
  destruct s; [congruence|discriminate].
Qed.

(** X1. The port is appended exactly to the strings that have a dot somewhere
    and a colon nowhere; every other string, an IPv6 literal or a host name
    without a dot among them, comes back as it is. *)
Theorem appendDefaultPort_by_characters (s : string) :
  ((exists a b, s = (a ++ "." ++ b)%string)
   /\ ~ (exists a b, s = (a ++ ":" ++ b)%string)
   -> appendDefaultPort s = (s ++ ":53")%string)
  /\ (~ (exists a b, s = (a ++ "." ++ b)%string)
      \/ (exists a b, s = (a ++ ":" ++ b)%string)
      -> appendDefaultPort s = s).
Proof.
  unfold appendDefaultPort. split.
  - intros [Hdot Hcolon]. apply strings_Contains_iff in Hdot. rewrite Hdot.
    destruct (strings_Contains s ":") eqn:Hc; [|reflexivity].
    apply strings_Contains_iff in Hc. contradiction.
  - intros [Hdot|Hcolon].
    + destruct (strings_Contains s ".") eqn:Hc; [|reflexivity].
      apply strings_Contains_iff in Hc. contradiction.
    + apply strings_Contains_iff in Hcolon. rewrite Hcolon.
      now rewrite andb_false_r.
Qed.

(** X2. Whatever comes out of [appendDefaultPort] with a dot in it has a colon
    too. *)
Theorem appendDefaultPort_dotted_has_colon (s : string) :
  strings_Contains (appendDefaultPort s) "." = true ->
  strings_Contains (appendDefaultPort s) ":" = true.
Proof.
  unfold appendDefaultPort.
  destruct (strings_Contains s ".") eqn:Hdot;
    destruct (strings_Contains s ":") eqn:Hcolon; simpl; intros H.
  - exact Hcolon.
  - apply appendDefaultPort_appended_has_colon.
  - congruence.
  - congruence.
Qed.

Lemma appendDefaultPort_dotted_has_colon_witness :
  strings_Contains (appendDefaultPort "114.114.114.114") "." = true
  /\ strings_Contains (appendDefaultPort "114.114.114.114") ":" = true.
Proof.
  split; [reflexivity|].
  apply (appendDefaultPort_dotted_has_colon "114.114.114.114"). reflexivity.
Defined.

(** ** [NewServer]: the configuration it builds *)

Section MoreConstruction.

Variable ParseLevel : string -> Level + Error.

(** X3. Both listeners of a new server are bound to the listen address of its
    configuration, one on udp and one on tcp, each handing its own network
    name to [Server.handle].  That address is never empty, and each of the
    three addresses of the configuration that has a dot has a colon.  The
    capacity and the log level are the given ones. *)
Theorem NewServer_wiring (cfg : Config) (log : Logger) :
  exists s : Server,
    fst (NewServer ParseLevel cfg log) = (Some s, None)
    /\ udpServer s = mkDnsServer (Listen (config s)) "udp" "udp"
    /\ tcpServer s = mkDnsServer (Listen (config s)) "tcp" "tcp"
    /\ Listen (config s) <> ""
    /\ (forall a, In a [FastDNS (config s); CleanDNS (config s); Listen (config s)] ->
                  strings_Contains a "." = true -> strings_Contains a ":" = true)
    /\ FastDNS (config s) = appendDefaultPort (FastDNS cfg)
    /\ CleanDNS (config s) = appendDefaultPort (CleanDNS cfg)
    /\ CacheCap (config s) = CacheCap cfg
    /\ LogLevel (config s) = LogLevel cfg.
Proof.
  unfold NewServer. eexists. split; [reflexivity|]. cbn [config udpServer tcpServer
    Listen FastDNS CleanDNS CacheCap LogLevel].
  split; [reflexivity|]. split; [reflexivity|]. split.
  - apply appendDefaultPort_nonempty.
    destruct (String.eqb (Listen cfg) "") eqn:He; [discriminate|].
    now apply String.eqb_neq.
  - split; [|repeat split].
    intros a [<-|[<-|[<-|[]]]]; apply appendDefaultPort_dotted_has_colon.
Qed.

(** X4. Building a server from the configuration of a server [NewServer] built
    gives that same server again, and leaves the logger as the first call
    left it. *)
Theorem NewServer_idempotent (cfg : Config) (log log1 : Logger) (s : Server) :
  NewServer ParseLevel cfg log = ((Some s, None), log1) ->
  NewServer ParseLevel (config s) log1 = ((Some s, None), log1).
Proof.
  unfold NewServer. intros [= <- <-].
  cbn [config Listen FastDNS CleanDNS CacheCap LogLevel].
  assert (Hne : String.eqb (appendDefaultPort
                  (if String.eqb (Listen cfg) "" then "127.0.0.1" else Listen cfg))
                  "" = false).
  { apply String.eqb_neq. apply appendDefaultPort_nonempty.
    destruct (String.eqb (Listen cfg) "") eqn:He; [discriminate|].
    now apply String.eqb_neq. }
  rewrite Hne, !appendDefaultPort_fixed.
  destruct (ParseLevel (LogLevel cfg)); reflexivity.
Qed.

End MoreConstruction.

Lemma NewServer_idempotent_witness :
  NewServer Demo.parseLevel Demo.config (mkLogger InfoLevel)
  = ((Some Demo.server, None), mkLogger InfoLevel)
  /\ NewServer Demo.parseLevel (config Demo.server) (mkLogger InfoLevel)
     = ((Some Demo.server, None), mkLogger InfoLevel).
Proof.
  split; [reflexivity|].
  apply (NewServer_idempotent Demo.parseLevel Demo.config (mkLogger InfoLevel)).
  reflexivity.
Defined.

(** ** [Server.lookup] and [Server.handle] on every request *)

Definition is_write (ev : Event) : bool :=
  match ev with
  | EvWriteMsg _ _ => true
  | _ => false
  end.


Section MoreRequests.

Context {St : Type} (h : Handlers St).

(** X5. On a request without a question [Server.lookup] panics on its first
    line: it has called nothing, started nothing and changed nothing. *)
Theorem lookup_without_question_panics (st : St) (req : dns_Msg) (net : string) :
  Question req = [] ->
  exec h (Server_lookup req net) st = mkOutcome None st [] [].
Proof.
  intros Hq. unfold Server_lookup, Question0. rewrite Hq. reflexivity.
Qed.

(** X6. When the resolver returns a message, as its contract has it,
    [Server.handle] does not panic, whatever the request and whatever the
    cache and the resolver answer, and it writes exactly one message, to its
    own writer.  The resolver's result is a [dns_Msg] here: a nil message,
    which [Server.lookup] would dereference at [res.Rcode], is not among
    the results considered. *)
Theorem handle_replies_once (st : St) (w : nat) (req : dns_Msg) (net : string) :
  returned (exec h (Server_handle w req net) st) = Some tt
  /\ exists m : dns_Msg,
       filter is_write (calls (exec h (Server_handle w req net) st))
       = [EvWriteMsg w m].
Proof.
  unfold Server_handle, Server_lookup, Question0.
  destruct (Question req) as [|q qs]; simpl.
  - split; [reflexivity|eexists; reflexivity].
  - destruct (Z.pos (Pos.of_succ_nat (length qs)) <? 1) eqn:Hlen;
      [apply Z.ltb_lt in Hlen; lia|].
    simpl.
    destruct (on_lookup h q (RecursionDesired req) net st)
      as [[[cached|] upd] st1]; simpl.
    + destruct upd; simpl;
        destruct (Rcode cached =? RcodeSuccess); simpl;
        (split; [reflexivity|eexists; reflexivity]).
    + destruct (on_resolve h q (RecursionDesired req) net st1) as [[r u] st2].
      simpl. destruct (Rcode r =? RcodeSuccess) eqn:Hr; simpl; rewrite ?Hr; simpl;
        (split; [reflexivity|eexists; reflexivity]).
Qed.

(** X7. The reply [Server.lookup] returns carries the request's id and opcode,
    the response bit, and the request's first question alone, however many
    the request has; its record sections are those of the answer
    obtained. *)
Theorem lookup_reply_header (st : St) (req : dns_Msg) (net : string)
  (q : dns_Question) (qs : list dns_Question) :
  Question req = q :: qs ->
  exists (res : dns_Msg) (upstream : string),
    returned (exec h (Server_lookup req net) st) = Some (res, upstream)
    /\ Id res = Id req /\ Opcode res = Opcode req /\ Response res = true
    /\ Question res = [q]
    /\ Answer res = Answer (obtained h q (RecursionDesired req) net st)
    /\ Ns res = Ns (obtained h q (RecursionDesired req) net st)
    /\ Extra res = Extra (obtained h q (RecursionDesired req) net st).
Proof.
  intros Hq. unfold Server_lookup, Question0, obtained. rewrite Hq. simpl.
  destruct (on_lookup h q (RecursionDesired req) net st)
    as [[[cached|] upd] st1]; simpl.
  - destruct upd; simpl; eexists; eexists; (split; [reflexivity|]);
      simpl; rewrite Hq; repeat split; reflexivity.
  - destruct (on_resolve h q (RecursionDesired req) net st1) as [[r u] st2].
    simpl. destruct (Rcode r =? RcodeSuccess); simpl;
      eexists; eexists; (split; [reflexivity|]);
      simpl; rewrite Hq; repeat split; reflexivity.
Qed.


End MoreRequests.

Lemma lookup_without_question_panics_witness :
  Question Demo.no_question = []
  /\ returned (exec (Demo.handlers Demo.domestic_answer "fast")
                    (Server_lookup Demo.no_question "udp") (0, newDNSCache 2))
     = None.
Proof.
  split; [reflexivity|].
  rewrite (lookup_without_question_panics (Demo.handlers Demo.domestic_answer "fast")
             (0, newDNSCache 2) Demo.no_question "udp" eq_refl).
  reflexivity.
Defined.

(** A request with two questions, answered from the stale entry whose own
    id is 99: the reply has the request's id and its first question only. *)
Lemma lookup_reply_header_witness :
  Question (mkMsg 7 false OpcodeQuery true false 0 [Demo.q_a; Demo.q_mx] [] [] [])
  = [Demo.q_a; Demo.q_mx]
  /\ exists (res : dns_Msg) (upstream : string),
       returned (exec (Demo.handlers (Demo.nxdomain Demo.q_a) "clean")
                   (Server_lookup
                      (mkMsg 7 false OpcodeQuery true false 0
                             [Demo.q_a; Demo.q_mx] [] [] []) "udp")
                   (100, Demo.stale_cache))
       = Some (res, upstream)
       /\ Id res = 7 /\ Question res = [Demo.q_a]
       /\ Answer res = Answer Demo.domestic_answer.
Proof.
  split; [reflexivity|].
  destruct (lookup_reply_header (Demo.handlers (Demo.nxdomain Demo.q_a) "clean")
              (100, Demo.stale_cache)
              (mkMsg 7 false OpcodeQuery true false 0 [Demo.q_a; Demo.q_mx] [] [] [])
              "udp" Demo.q_a [Demo.q_mx] eq_refl)
    as [res [upstream [H1 [H2 [_ [_ [H5 [H6 _]]]]]]]].
  exists res, upstream. split; [exact H1|]. split; [exact H2|].
  split; [exact H5|exact H6].
Defined.


(** ** [Server.Run]

    [Run] makes a channel of errors with room for two, starts one goroutine
    per listener and waits for the first error; it then shuts both
    listeners down and returns that error.  A goroutine is the instructions
    it has left and its variable [err]; a Go [error] is [None] when nil.
    When a [ListenAndServe] returns, and with which error, is up to the
    network and to whoever shuts the listener down. *)

Inductive Listener : Type := TCP | UDP.

Inductive RunInstr : Type :=
| IListenAndServe (l : Listener)
| ISend
| IRecv
| IShutdown (l : Listener)
| IReturn.

Inductive RunEvent : Type :=
| EvServed (l : Listener) (e : option Error)
| EvSent (e : option Error)
| EvReceived (e : option Error)
| EvShutdown (l : Listener)
| EvReturned (e : option Error).

Record Goroutine : Type := mkGoroutine {
  code : list RunInstr;
  err : option Error
}.

(** [make(chan error, 2)]. *)
Definition errChanCap : nat := 2.

(** [err := s.tcpServer.ListenAndServe(); errChan <- err], and the same for
    udp. *)
Definition Run_listen (l : Listener) : list RunInstr := [IListenAndServe l; ISend].

(** The [select] of [Run]: receive, shut both listeners down, return. *)
Definition Run_main : list RunInstr := [IRecv; IShutdown TCP; IShutdown UDP; IReturn].

Record RunState : Type := mkRunState {
  g_main : Goroutine;
  g_tcp : Goroutine;
  g_udp : Goroutine;
  errChan : list (option Error);
  events : list RunEvent
}.

(** [Run] once the channel is made and the two goroutines are started. *)
Definition Run_start : RunState :=
  mkRunState (mkGoroutine Run_main None)
             (mkGoroutine (Run_listen TCP) None)
             (mkGoroutine (Run_listen UDP) None) [] [].

(** One instruction of a goroutine over the channel.  A send needs room in
    the buffer and a receive needs a value in it; they block otherwise. *)
Inductive instr_step
  : Goroutine -> list (option Error) -> Goroutine -> list (option Error)
    -> RunEvent -> Prop :=
| is_serve l c e0 e ch :
    instr_step (mkGoroutine (IListenAndServe l :: c) e0) ch
               (mkGoroutine c e) ch (EvServed l e)
| is_send c e ch :
    (length ch < errChanCap)%nat ->
    instr_step (mkGoroutine (ISend :: c) e) ch
               (mkGoroutine c e) (ch ++ [e]) (EvSent e)
| is_recv c e0 e ch :
    instr_step (mkGoroutine (IRecv :: c) e0) (e :: ch)
               (mkGoroutine c e) ch (EvReceived e)
| is_shutdown l c e ch :
    instr_step (mkGoroutine (IShutdown l :: c) e) ch
               (mkGoroutine c e) ch (EvShutdown l)
| is_return c e ch :
    instr_step (mkGoroutine (IReturn :: c) e) ch
               (mkGoroutine [] e) ch (EvReturned e).

Inductive run_step : RunState -> RunState -> Prop :=
| run_main s g ch ev :
    instr_step (g_main s) (errChan s) g ch ev ->
    run_step s (mkRunState g (g_tcp s) (g_udp s) ch (events s ++ [ev]))
| run_tcp s g ch ev :
    instr_step (g_tcp s) (errChan s) g ch ev ->
    run_step s (mkRunState (g_main s) g (g_udp s) ch (events s ++ [ev]))
| run_udp s g ch ev :
    instr_step (g_udp s) (errChan s) g ch ev ->
    run_step s (mkRunState (g_main s) (g_tcp s) g ch (events s ++ [ev])).

Inductive run_steps : RunState -> RunState -> Prop :=
| run_steps_refl s : run_steps s s
| run_steps_step s s' s'' : run_steps s s' -> run_step s' s'' -> run_steps s s''.

(** What [Run] has returned, if it has. *)
Fixpoint Run_result (evs : list RunEvent) : option (option Error) :=
  match evs with
  | [] => None
  | EvReturned e :: _ => Some e
  | _ :: evs' => Run_result evs'
  end.

(** The errors sent on the channel, in order, and the events of [Run]'s own
    goroutine. *)
Definition sends (evs : list RunEvent) : list (option Error) :=
  flat_map (fun ev => match ev with EvSent e => [e] | _ => [] end) evs.

Definition is_main_event (ev : RunEvent) : bool :=
  match ev with
  | EvReceived _ => true
  | EvShutdown _ => true
  | EvReturned _ => true
  | _ => false
  end.

Definition main_events (evs : list RunEvent) : list RunEvent :=
  filter is_main_event evs.

Definition finished (g : Goroutine) : nat :=
  match code g with
  | [] => 1
  | _ => 0
  end.

(** Where a listener's goroutine can be: before its [ListenAndServe]
    returns, holding the error it returned, or done after sending it. *)
Definition listener_ok (l : Listener) (g : Goroutine) (evs : list RunEvent) : Prop :=
  g = mkGoroutine (Run_listen l) None
  \/ (code g = [ISend] /\ In (EvServed l (err g)) evs)
  \/ (code g = [] /\ In (EvServed l (err g)) evs /\ In (err g) (sends evs)).

(** Where [Run]'s own goroutine can be: waiting with nothing received, or
    past the receive of the first error sent, on its way to the return. *)
Definition main_ok (s : RunState) : Prop :=
  (g_main s = mkGoroutine Run_main None
   /\ main_events (events s) = [] /\ errChan s = sends (events s))
  \/ (sends (events s) = err (g_main s) :: errChan s
      /\ ((code (g_main s) = [IShutdown TCP; IShutdown UDP; IReturn]
           /\ main_events (events s) = [EvReceived (err (g_main s))])
          \/ (code (g_main s) = [IShutdown UDP; IReturn]
              /\ main_events (events s)
                 = [EvReceived (err (g_main s)); EvShutdown TCP])
          \/ (code (g_main s) = [IReturn]
              /\ main_events (events s)
                 = [EvReceived (err (g_main s)); EvShutdown TCP; EvShutdown UDP])
          \/ (code (g_main s) = []
              /\ main_events (events s)
                 = [EvReceived (err (g_main s)); EvShutdown TCP; EvShutdown UDP;
                    EvReturned (err (g_main s))]))).

Definition run_inv (s : RunState) : Prop :=
  listener_ok TCP (g_tcp s) (events s)
  /\ listener_ok UDP (g_udp s) (events s)
  /\ main_ok s
  /\ length (sends (events s)) = (finished (g_tcp s) + finished (g_udp s))%nat
  /\ (forall e, In e (sends (events s)) -> exists l, In (EvServed l e) (events s)).

Lemma sends_app (a b : list RunEvent) : sends (a ++ b) = sends a ++ sends b.
Proof. unfold sends. apply flat_map_app. Qed.

Lemma main_events_app (a b : list RunEvent) :
  main_events (a ++ b) = main_events a ++ main_events b.
Proof. unfold main_events. apply filter_app. Qed.

Lemma listener_ok_mono (l : Listener) (g : Goroutine) (evs : list RunEvent)
  (ev : RunEvent) :
  listener_ok l g evs -> listener_ok l g (evs ++ [ev]).
Proof.
  unfold listener_ok. intros [H|[[H1 H2]|[H1 [H2 H3]]]].
  - now left.
  - right; left. split; [exact H1|]. apply in_or_app. now left.
  - right; right. split; [exact H1|]. split.
    + apply in_or_app. now left.
    + rewrite sends_app. apply in_or_app. now left.
Qed.

Lemma served_mono (evs : list RunEvent) (ev : RunEvent) :
  sends [ev] = [] ->
  (forall e, In e (sends evs) -> exists l, In (EvServed l e) evs) ->
  forall e, In e (sends (evs ++ [ev])) -> exists l, In (EvServed l e) (evs ++ [ev]).
Proof.
  intros Hev H e Hin. rewrite sends_app, Hev, app_nil_r in Hin.
  destruct (H e Hin) as [l Hl]. exists l. apply in_or_app. now left.
Qed.

(** The two steps a listener's goroutine can take. *)
Lemma listener_step_cases (l : Listener) (g g' : Goroutine)
  (ch ch' : list (option Error)) (evs : list RunEvent) (ev : RunEvent) :
  instr_step g ch g' ch' ev ->
  listener_ok l g evs ->
  (exists e, g = mkGoroutine (Run_listen l) None /\ g' = mkGoroutine [ISend] e
             /\ ch' = ch /\ ev = EvServed l e)
  \/ (exists e, g = mkGoroutine [ISend] e /\ g' = mkGoroutine [] e
                /\ ch' = ch ++ [e] /\ ev = EvSent e
                /\ In (EvServed l e) evs).
Proof.
  intros Hstep [Hg|[[Hc Hs]|[Hc _]]].
  - left. subst g. inversion Hstep; subst. eexists. repeat split.
  - right. destruct g as [c e]. simpl in *. subst c.
    inversion Hstep; subst. exists e. repeat split. exact Hs.
  - destruct g as [c e]. simpl in *. subst c. inversion Hstep.
Qed.

Lemma listener_step_inv (s : RunState) (l : Listener) (g g' other : Goroutine)
  (ch' : list (option Error)) (ev : RunEvent) :
  instr_step g (errChan s) g' ch' ev ->
  listener_ok l g (events s) ->
  main_ok s ->
  length (sends (events s)) = (finished g + finished other)%nat ->
  (forall e, In e (sends (events s)) -> exists l, In (EvServed l e) (events s)) ->
  listener_ok l g' (events s ++ [ev])
  /\ main_events (events s ++ [ev]) = main_events (events s)
  /\ ((g_main s = mkGoroutine Run_main None /\ ch' = sends (events s ++ [ev]))
      \/ (g_main s <> mkGoroutine Run_main None
          /\ sends (events s ++ [ev]) = err (g_main s) :: ch'))
  /\ length (sends (events s ++ [ev])) = (finished g' + finished other)%nat
  /\ (forall e, In e (sends (events s ++ [ev])) ->
                exists l, In (EvServed l e) (events s ++ [ev])).
Proof.
  intros Hstep Hl Hmain Hcount Hserved.
  assert (Hmain' : (g_main s = mkGoroutine Run_main None
                    /\ errChan s = sends (events s))
                   \/ (g_main s <> mkGoroutine Run_main None
                       /\ sends (events s) = err (g_main s) :: errChan s)).
  { destruct Hmain as [[H1 [_ H3]]|[H1 H2]]; [now left|right].
    split; [|exact H1]. intros Heq. rewrite Heq in H2. simpl in H2.
    destruct H2 as [[H _]|[[H _]|[[H _]|[H _]]]]; discriminate. }
  destruct (listener_step_cases _ _ _ _ _ _ _ Hstep Hl)
    as [[e [-> [-> [-> ->]]]]|[e [-> [-> [-> [-> Hs]]]]]].
  - rewrite sends_app, main_events_app. simpl. rewrite !app_nil_r.
    split; [right; left; split; [reflexivity|apply in_or_app; right; now left]|].
    split; [reflexivity|]. split; [tauto|]. split; [exact Hcount|].
    intros e' Hin. destruct (Hserved e' Hin) as [l' Hl'].
    exists l'. apply in_or_app. now left.
  - rewrite sends_app, main_events_app. simpl. rewrite app_nil_r.
    split.
    { right; right. split; [reflexivity|]. simpl. split.
      - apply in_or_app. now left.
      - rewrite sends_app. apply in_or_app. right. now left. }
    split; [reflexivity|]. split.
    { destruct Hmain' as [[H1 H2]|[H1 H2]].
      - left. split; [exact H1|]. now rewrite H2.
      - right. split; [exact H1|]. rewrite H2. reflexivity. }
    split.
    { rewrite length_app. simpl. unfold finished in *. simpl in *. lia. }
    intros e' Hin. apply in_app_or in Hin. destruct Hin as [Hin|[<-|[]]].
    + destruct (Hserved e' Hin) as [l' Hl']. exists l'. apply in_or_app. now left.
    + exists l. apply in_or_app. now left.
Qed.

Lemma main_step_inv (s : RunState) (g : Goroutine) (ch : list (option Error))
  (ev : RunEvent) :
  instr_step (g_main s) (errChan s) g ch ev ->
  main_ok s ->
  sends [ev] = []
  /\ main_ok (mkRunState g (g_tcp s) (g_udp s) ch (events s ++ [ev])).
Proof.
  intros Hstep Hmain. unfold main_ok in *. simpl.
  rewrite sends_app, main_events_app.
  destruct (g_main s) as [c e0] eqn:Hg. simpl in *.
  destruct Hmain as [[H1 [H2 H3]]|[H1 [[Hc Hm]|[[Hc Hm]|[[Hc Hm]|[Hc Hm]]]]]].
  - injection H1 as -> ->. inversion Hstep; subst. simpl.
    split; [reflexivity|]. right. rewrite app_nil_r, H2. simpl.
    split; [congruence|]. left. split; reflexivity.
  - subst c. inversion Hstep; subst. simpl.
    split; [reflexivity|]. right. rewrite app_nil_r, Hm. simpl.
    split; [exact H1|]. right; left. split; reflexivity.
  - subst c. inversion Hstep; subst. simpl.
    split; [reflexivity|]. right. rewrite app_nil_r, Hm. simpl.
    split; [exact H1|]. right; right; left. split; reflexivity.
  - subst c. inversion Hstep; subst. simpl.
    split; [reflexivity|]. right. rewrite app_nil_r, Hm. simpl.
    split; [exact H1|]. right; right; right. split; reflexivity.
  - subst c. inversion Hstep.
Qed.

Lemma main_ok_listener (s : RunState) (gt gu : Goroutine)
  (ch : list (option Error)) (ev : RunEvent) :
  main_ok s ->
  main_events (events s ++ [ev]) = main_events (events s) ->
  (g_main s = mkGoroutine Run_main None /\ ch = sends (events s ++ [ev]))
  \/ (g_main s <> mkGoroutine Run_main None
      /\ sends (events s ++ [ev]) = err (g_main s) :: ch) ->
  main_ok (mkRunState (g_main s) gt gu ch (events s ++ [ev])).
Proof.
  unfold main_ok. simpl. intros Hmain -> Hch.
  destruct Hmain as [[H1 [H2 H3]]|[H1 H2]].
  - left. destruct Hch as [[_ Hch]|[Hne _]]; [auto|contradiction].
  - right. destruct Hch as [[Heq _]|[_ Hch]]; [|auto].
    rewrite Heq in H2. simpl in H2.
    destruct H2 as [[H _]|[[H _]|[[H _]|[H _]]]]; discriminate.
Qed.

Lemma run_inv_start : run_inv Run_start.
Proof.
  unfold run_inv, Run_start, listener_ok, main_ok. simpl.
  split; [now left|]. split; [now left|]. split; [left; auto|].
  split; [reflexivity|]. intros e [].
Qed.

Lemma run_inv_step (s s' : RunState) : run_step s s' -> run_inv s -> run_inv s'.
Proof.
  intros Hstep (Ht & Hu & Hm & Hcount & Hserved).
  destruct Hstep as [s g ch ev Hi|s g ch ev Hi|s g ch ev Hi]; unfold run_inv; simpl.
  - destruct (main_step_inv _ _ _ _ Hi Hm) as [Hev Hm'].
    split; [now apply listener_ok_mono|]. split; [now apply listener_ok_mono|].
    split; [exact Hm'|]. split.
    + now rewrite sends_app, Hev, app_nil_r.
    + now apply served_mono.
  - destruct (listener_step_inv s TCP _ _ (g_udp s) _ _ Hi Ht Hm Hcount Hserved)
      as (Ht' & Hme & Hch & Hcount' & Hserved').
    split; [exact Ht'|]. split; [now apply listener_ok_mono|].
    split; [now apply main_ok_listener|]. split; assumption.
  - assert (Hcount2 : length (sends (events s))
                      = (finished (g_udp s) + finished (g_tcp s))%nat) by lia.
    destruct (listener_step_inv s UDP _ _ (g_tcp s) _ _ Hi Hu Hm Hcount2 Hserved)
      as (Hu' & Hme & Hch & Hcount' & Hserved').
    split; [now apply listener_ok_mono|]. split; [exact Hu'|].
    split; [now apply main_ok_listener|]. split; [lia|assumption].
Qed.

Lemma run_inv_steps (s s' : RunState) : run_steps s s' -> run_inv s -> run_inv s'.
Proof.
  intros Hsteps Hinv. induction Hsteps as [|s s' s'' _ IH Hstep]; [exact Hinv|].
  eapply run_inv_step; eauto.
Qed.

Lemma Run_result_main_events (evs : list RunEvent) :
  Run_result evs = Run_result (main_events evs).
Proof.
  induction evs as [|ev evs IH]; [reflexivity|].
  destruct ev; simpl; auto.
Qed.

Lemma channel_within_sends (s : RunState) :
  main_ok s -> (length (errChan s) <= length (sends (events s)))%nat.
Proof.
  intros [[_ [_ ->]]|[-> _]]; simpl; lia.
Qed.

(** X9. The buffer of two is never exceeded, and a listener's goroutine that has
    not sent yet finds room in it: its send does not block, whether or not
    [Run] is still there to receive. *)
Theorem Run_sends_never_block (s : RunState) :
  run_steps Run_start s ->
  (length (errChan s) <= errChanCap)%nat
  /\ (code (g_tcp s) <> [] \/ code (g_udp s) <> [] ->
      (length (errChan s) < errChanCap)%nat)
  /\ (forall e, g_tcp s = mkGoroutine [ISend] e ->
        run_step s (mkRunState (g_main s) (mkGoroutine [] e) (g_udp s)
                               (errChan s ++ [e]) (events s ++ [EvSent e])))
  /\ (forall e, g_udp s = mkGoroutine [ISend] e ->
        run_step s (mkRunState (g_main s) (g_tcp s) (mkGoroutine [] e)
                               (errChan s ++ [e]) (events s ++ [EvSent e]))).
Proof.
  intros Hreach.
  destruct (run_inv_steps _ _ Hreach run_inv_start) as (Ht & Hu & Hm & Hcount & _).
  pose proof (channel_within_sends s Hm) as Hle.
  assert (Hroom : code (g_tcp s) <> [] \/ code (g_udp s) <> [] ->
                  (length (errChan s) < errChanCap)%nat).
  { unfold errChanCap, finished in *.
    intros [Hc|Hc]; destruct (code (g_tcp s)), (code (g_udp s));
      simpl in *; try congruence; lia. }
  split; [|split; [exact Hroom|split]].
  - unfold errChanCap, finished in *.
    destruct (code (g_tcp s)), (code (g_udp s)); simpl in *; lia.
  - intros e He. apply run_tcp. rewrite He. apply is_send.
    apply Hroom. left. rewrite He. discriminate.
  - intros e He. apply run_udp. rewrite He. apply is_send.
    apply Hroom. right. rewrite He. discriminate.
Qed.

(** X10. When [Run] has returned an error, that error is the first one sent on
    the channel, it is what a [ListenAndServe] returned, and [Run] has
    received it, shut the tcp listener down and then the udp listener, in
    that order, before it returned. *)
Theorem Run_returns_first_error (s : RunState) (e : option Error) :
  run_steps Run_start s ->
  Run_result (events s) = Some e ->
  (exists later, sends (events s) = e :: later)
  /\ (exists l, In (EvServed l e) (events s))
  /\ main_events (events s)
     = EvReceived e :: map EvShutdown [TCP; UDP] ++ [EvReturned e].
Proof.
  intros Hreach Hres.
  destruct (run_inv_steps _ _ Hreach run_inv_start) as (_ & _ & Hm & _ & Hserved).
  rewrite Run_result_main_events in Hres.
  destruct Hm as [[_ [Hme _]]|[Hs [[_ Hme]|[[_ Hme]|[[_ Hme]|[_ Hme]]]]]];
    rewrite Hme in Hres; simpl in Hres; try discriminate.
  injection Hres as Hres. rewrite Hres in *.
  split; [eexists; exact Hs|]. split; [|exact Hme].
  apply Hserved. rewrite Hs. now left.
Qed.

(** X11. While both listeners are serving, [Run] has not returned and cannot
    move: the channel is empty and its receive blocks. *)
Theorem Run_blocks_while_serving (s : RunState) :
  run_steps Run_start s ->
  code (g_tcp s) = Run_listen TCP ->
  code (g_udp s) = Run_listen UDP ->
  Run_result (events s) = None
  /\ errChan s = []
  /\ forall g ch ev, ~ instr_step (g_main s) (errChan s) g ch ev.
Proof.
  intros Hreach Htcp Hudp.
  destruct (run_inv_steps _ _ Hreach run_inv_start) as (_ & _ & Hm & Hcount & _).
  unfold finished in Hcount. rewrite Htcp, Hudp in Hcount. simpl in Hcount.
  destruct (sends (events s)) eqn:Hs; [|discriminate].
  destruct Hm as [[Hg [Hme Hch]]|[Hbad _]]; [|rewrite Hs in Hbad; discriminate].
  rewrite Hs in Hch.
  split; [now rewrite Run_result_main_events, Hme|].
  split; [exact Hch|].
  intros g ch ev Hstep. rewrite Hg, Hch in Hstep. inversion Hstep.
Qed.

Lemma run_steps_trans (s s' s'' : RunState) :
  run_steps s s' -> run_steps s' s'' -> run_steps s s''.
Proof.
  intros H1 H2. revert H1. induction H2 as [s1|s1 s2 s3 _ IH Hstep]; intros H1.
  - exact H1.
  - exact (run_steps_step _ _ _ (IH H1) Hstep).
Qed.

Lemma Run_result_app (a b : list RunEvent) :
  Run_result (a ++ b)
  = match Run_result a with
    | Some e => Some e
    | None => Run_result b
    end.
Proof.
  induction a as [|ev a IH]; [reflexivity|]. destruct ev; simpl; auto.
Qed.

(** Shutdowns and the return never block. *)
Lemma main_finishes (ls : list Listener) (e : option Error) (gt gu : Goroutine)
  (ch : list (option Error)) (evs : list RunEvent) :
  run_steps (mkRunState (mkGoroutine (map IShutdown ls ++ [IReturn]) e) gt gu ch evs)
            (mkRunState (mkGoroutine [] e) gt gu ch
                        (evs ++ map EvShutdown ls ++ [EvReturned e])).
Proof.
  revert evs. induction ls as [|l ls IH]; intros evs; simpl.
  - eapply run_steps_step; [apply run_steps_refl|].
    apply (run_main (mkRunState (mkGoroutine [IReturn] e) gt gu ch evs)).
    apply is_return.
  - eapply run_steps_trans.
    + eapply run_steps_step; [apply run_steps_refl|].
      apply (run_main (mkRunState
                         (mkGoroutine (IShutdown l :: map IShutdown ls ++ [IReturn]) e)
                         gt gu ch evs)).
      apply is_shutdown.
    + simpl. specialize (IH (evs ++ [EvShutdown l])).
      rewrite <- app_assoc in IH. exact IH.
Qed.

Definition is_served (ev : RunEvent) : bool :=
  match ev with
  | EvServed _ _ => true
  | _ => false
  end.

(** X12. Once one [ListenAndServe] has returned, [Run] can return without
    anything else happening outside: the pending send goes through, the
    receive finds the error, and the shutdowns and the return follow. *)
Theorem Run_can_return (s : RunState) :
  run_steps Run_start s ->
  code (g_tcp s) <> Run_listen TCP \/ code (g_udp s) <> Run_listen UDP ->
  exists (s' : RunState) (e : option Error),
    run_steps s s'
    /\ Run_result (events s') = Some e
    /\ filter is_served (events s') = filter is_served (events s).
Proof.
  intros Hreach Hstopped.
  destruct (run_inv_steps _ _ Hreach run_inv_start) as (Ht & Hu & Hm & Hcount & _).
  pose proof (Run_sends_never_block s Hreach) as (_ & _ & Hsend_t & Hsend_u).
  destruct s as [gm gt gu ch evs]. simpl in *.
  assert (Hfinish : forall ls e gt' gu' ch' evs',
             filter is_served evs' = filter is_served evs ->
             run_steps (mkRunState gm gt gu ch evs)
                       (mkRunState (mkGoroutine (map IShutdown ls ++ [IReturn]) e)
                                   gt' gu' ch' evs') ->
             exists s' e0, run_steps (mkRunState gm gt gu ch evs) s'
                           /\ Run_result (events s') = Some e0
                           /\ filter is_served (events s') = filter is_served evs).
  { intros ls e gt' gu' ch' evs' Hf Hpath.
    eexists. exists (match Run_result evs' with Some x => x | None => e end).
    split; [eapply run_steps_trans; [exact Hpath|apply main_finishes]|].
    simpl. split.
    - rewrite Run_result_app. destruct (Run_result evs'); [reflexivity|].
      rewrite Run_result_app.
      assert (Hn : Run_result (map EvShutdown ls) = None)
        by (clear; induction ls; simpl; auto).
      now rewrite Hn.
    - rewrite filter_app, <- Hf.
      assert (Hn : filter is_served (map EvShutdown ls ++ [EvReturned e]) = [])
        by (clear; induction ls; simpl; auto).
      now rewrite Hn, app_nil_r. }
  assert (Hrecv : forall e0 ch0 gt' gu' evs',
             filter is_served evs' = filter is_served evs ->
             run_steps (mkRunState gm gt gu ch evs)
                       (mkRunState (mkGoroutine Run_main None) gt' gu' (e0 :: ch0) evs') ->
             exists s' e1, run_steps (mkRunState gm gt gu ch evs) s'
                           /\ Run_result (events s') = Some e1
                           /\ filter is_served (events s') = filter is_served evs).
  { intros e0 ch0 gt' gu' evs' Hf Hpath.
    apply (Hfinish [TCP; UDP] e0 gt' gu' ch0 (evs' ++ [EvReceived e0])).
    - rewrite filter_app. simpl. now rewrite app_nil_r.
    - eapply run_steps_step; [exact Hpath|].
      apply (run_main (mkRunState (mkGoroutine Run_main None) gt' gu' (e0 :: ch0) evs')).
      apply is_recv. }
  unfold main_ok in Hm. simpl in Hm.
  destruct Hm as [[Hg [_ Hch]]|[Hs Hphase]].
  - subst gm.
    destruct ch as [|e0 ch0]; [|eapply Hrecv; [reflexivity|apply run_steps_refl]].
    rewrite <- Hch in Hcount. simpl in Hcount.
    assert (Hpending : (exists e, gt = mkGoroutine [ISend] e)
                       \/ (exists e, gu = mkGoroutine [ISend] e)).
    { unfold listener_ok, finished in *.
      destruct Hstopped as [Hne|Hne].
      - left. destruct Ht as [->|[[Hc _]|[Hc _]]].
        + simpl in Hne. congruence.
        + destruct gt as [c e]. simpl in Hc. subst c. eauto.
        + rewrite Hc in Hcount. simpl in Hcount. lia.
      - right. destruct Hu as [->|[[Hc _]|[Hc _]]].
        + simpl in Hne. congruence.
        + destruct gu as [c e]. simpl in Hc. subst c. eauto.
        + rewrite Hc in Hcount. simpl in Hcount. lia. }
    destruct Hpending as [[e He]|[e He]].
    + eapply (Hrecv e [] _ _ (evs ++ [EvSent e])).
      * rewrite filter_app. simpl. now rewrite app_nil_r.
      * eapply run_steps_step; [apply run_steps_refl|].
        apply (Hsend_t e He).
    + eapply (Hrecv e [] _ _ (evs ++ [EvSent e])).
      * rewrite filter_app. simpl. now rewrite app_nil_r.
      * eapply run_steps_step; [apply run_steps_refl|].
        apply (Hsend_u e He).
  - destruct gm as [c e]. simpl in *.
    destruct Hphase as [[Hc _]|[[Hc _]|[[Hc _]|[Hc Hme]]]]; subst c.
    + apply (Hfinish [TCP; UDP] e gt gu ch evs); [reflexivity|apply run_steps_refl].
    + apply (Hfinish [UDP] e gt gu ch evs); [reflexivity|apply run_steps_refl].
    + apply (Hfinish [] e gt gu ch evs); [reflexivity|apply run_steps_refl].
    + eexists. exists e. split; [apply run_steps_refl|]. simpl.
      split; [|reflexivity]. rewrite Run_result_main_events, Hme. reflexivity.
Qed.

(** *** [Run] when the tcp listener cannot bind *)

Definition bind_error : option Error :=
  Some "listen tcp 127.0.0.1:53: bind: address already in use".

(** The tcp [ListenAndServe] has returned the error; nothing is sent yet. *)
Definition run_tcp_failed : RunState :=
  mkRunState (mkGoroutine Run_main None)
             (mkGoroutine [ISend] bind_error)
             (mkGoroutine (Run_listen UDP) None)
             [] [EvServed TCP bind_error].

(** [Run] has returned the error; the udp listener is still serving. *)
Definition run_returned : RunState :=
  mkRunState (mkGoroutine [] bind_error)
             (mkGoroutine [] bind_error)
             (mkGoroutine (Run_listen UDP) None)
             []
             [EvServed TCP bind_error; EvSent bind_error; EvReceived bind_error;
              EvShutdown TCP; EvShutdown UDP; EvReturned bind_error].

Lemma run_tcp_failed_reachable : run_steps Run_start run_tcp_failed.
Proof.
  eapply run_steps_step; [apply run_steps_refl|].
  apply (run_tcp Run_start (mkGoroutine [ISend] bind_error) [] (EvServed TCP bind_error)).
  apply is_serve.
Qed.

Lemma run_returned_reachable : run_steps Run_start run_returned.
Proof.
  eapply run_steps_trans.
  - eapply run_steps_step; [eapply run_steps_step; [exact run_tcp_failed_reachable|]|].
    + apply (run_tcp run_tcp_failed (mkGoroutine [] bind_error) [bind_error]
                     (EvSent bind_error)).
      apply (is_send [] bind_error []). unfold errChanCap. simpl. lia.
    + apply (run_main (mkRunState (mkGoroutine Run_main None)
                                  (mkGoroutine [] bind_error)
                                  (mkGoroutine (Run_listen UDP) None)
                                  [bind_error]
                                  [EvServed TCP bind_error; EvSent bind_error])
                      (mkGoroutine [IShutdown TCP; IShutdown UDP; IReturn] bind_error)
                      [] (EvReceived bind_error)).
      apply is_recv.
  - apply (main_finishes [TCP; UDP] bind_error).
Qed.

Lemma Run_sends_never_block_witness :
  run_steps Run_start run_tcp_failed
  /\ (length (errChan run_tcp_failed) < errChanCap)%nat
  /\ run_step run_tcp_failed
       (mkRunState (mkGoroutine Run_main None) (mkGoroutine [] bind_error)
                   (mkGoroutine (Run_listen UDP) None)
                   [bind_error] [EvServed TCP bind_error; EvSent bind_error]).
Proof.
  split; [exact run_tcp_failed_reachable|].
  destruct (Run_sends_never_block run_tcp_failed run_tcp_failed_reachable)
    as (_ & Hroom & Hsend & _).
  split.
  - apply Hroom. left. discriminate.
  - apply (Hsend bind_error). reflexivity.
Defined.

Lemma Run_returns_first_error_witness :
  run_steps Run_start run_returned
  /\ Run_result (events run_returned) = Some bind_error
  /\ (exists later, sends (events run_returned) = bind_error :: later)
  /\ (exists l, In (EvServed l bind_error) (events run_returned)).
Proof.
  split; [exact run_returned_reachable|]. split; [reflexivity|].
  destruct (Run_returns_first_error run_returned bind_error
              run_returned_reachable eq_refl) as (H1 & H2 & _).
  split; assumption.
Defined.

Lemma Run_blocks_while_serving_witness :
  run_steps Run_start Run_start
  /\ code (g_tcp Run_start) = Run_listen TCP
  /\ code (g_udp Run_start) = Run_listen UDP
  /\ Run_result (events Run_start) = None
  /\ errChan Run_start = [].
Proof.
  split; [apply run_steps_refl|]. split; [reflexivity|]. split; [reflexivity|].
  destruct (Run_blocks_while_serving Run_start (run_steps_refl _) eq_refl eq_refl)
    as (H1 & H2 & _).
  split; assumption.
Defined.

Lemma Run_can_return_witness :
  run_steps Run_start run_tcp_failed
  /\ code (g_tcp run_tcp_failed) <> Run_listen TCP
  /\ exists (s' : RunState) (e : option Error),
       run_steps run_tcp_failed s' /\ Run_result (events s') = Some e.
Proof.
  split; [exact run_tcp_failed_reachable|]. split; [discriminate|].
  destruct (Run_can_return run_tcp_failed run_tcp_failed_reachable)
    as (s' & e & H1 & H2 & _).
  - left. discriminate.
  - exists s', e. split; assumption.
Defined.
